(** * Service-topology initialisation of clair: a shallow embedding.

    The first part embeds [Init.Services] (package [initialize]): the
    function that, from the configured mode, builds the indexer, matcher
    and notifier handles, locally or as remote clients.  The second part
    embeds the [openapigen] tool ([convert] and the text [main] emits).

    The collaborators ([libindex.New], [libvuln.New], [config.Client],
    [client.NewHTTP], [notifier.New], the logger) are calls into an
    environment: a record of functions over an abstract [World], so that a
    statement quantified over the environment covers every way the
    collaborators can answer.  Every call is recorded, with its arguments
    and its answer, in a trace. *)

From Stdlib Require Import ZArith Lia Ascii.
From stdpp Require Import base option list gmap strings pretty sorting.

Set Warnings "-register-all".

(** ** Go values *)

(** Signed [bits]-bit wrap-around of Go's integer conversions and
    arithmetic. *)
Definition int_wrap (bits : Z) (z : Z) : Z :=
  ((z + 2 ^ (bits - 1)) `mod` 2 ^ bits - 2 ^ (bits - 1))%Z.

(** An error value produced by a collaborator; only its [Error()] text is
    ever read. *)
Record ForeignError := { Error : string }.

(** What a collaborator of signature [(T, error)] returns. *)
Inductive returned (A : Type) : Type :=
| ok (a : A)
| failed (err : ForeignError).
Arguments ok {A} a.
Arguments failed {A} err.

(** [yaml.Node], and a method value [p.Decode], identified by the node
    that its receiver [p] points to when the method value is called.
    [Decode] has a pointer receiver: [node.Decode] on a variable [node]
    is [(&node).Decode], bound to the variable and not to what the
    variable holds when the method value is taken. *)
Record yaml_Node := { node_text : string }.
Inductive DecodeFunc := Decode (node : yaml_Node).

(** A Go map that may be [nil]. *)
Abbreviation gomap V := (option (gmap string V)).

(** [m[k]] on a possibly nil map. *)
Definition go_lookup {V} (m : gomap V) (k : string) : option V :=
  m ≫= (λ entries : gmap string V, entries !! k).

(** [len(m)]. *)
Definition go_len {V} (m : gomap V) : nat :=
  from_option (λ entries : gmap string V, size entries) 0%nat m.

(** ** The collaborating packages, at their interface *)

Module time.
Definition Second : Z := 1000000000%Z.
Definition Minute : Z := (60 * Second)%Z.
End time.

Module jwt.
Record Claims := { Issuer : string }.
End jwt.

Module webhook.
Record Config := { raw : string }.
End webhook.
Module amqp.
Record Config := { raw : string }.
End amqp.
Module stomp.
Record Config := { raw : string }.
End stomp.

Module config.

(** Modelled from the spec: the declaration of the mode selector is not
    among the sources.  The four named constants are the ones
    [Services] switches on; [OtherMode v] stands for any other value of
    the selector, [v] being how it prints. *)
Inductive Mode :=
| ComboMode
| IndexerMode
| MatcherMode
| NotifierMode
| OtherMode (v : string).

(** Modelled from the spec: the configuration structs are not among the
    sources; the fields are the ones [Services] reads. *)
Record ScannerConfig := {
  Package : gomap yaml_Node;
  Dist : gomap yaml_Node;
  Repo : gomap yaml_Node;
}.

Record Indexer := {
  Indexer_ConnString : string;
  Indexer_ScanLockRetry : Z;
  Indexer_LayerScanConcurrency : Z;
  Indexer_Migrations : bool;
  Indexer_Airgap : bool;
  Scanner : ScannerConfig;
}.

Record Matcher := {
  Matcher_ConnString : string;
  Matcher_MaxConnPool : Z;
  Matcher_IndexerAddr : string;
  Matcher_Migrations : bool;
  Matcher_Period : Z;
  Matcher_UpdateRetention : Z;
}.

Record Notifier := {
  Notifier_ConnString : string;
  Notifier_IndexerAddr : string;
  Notifier_MatcherAddr : string;
  Notifier_Migrations : bool;
  Notifier_PollInterval : Z;
  Notifier_DeliveryInterval : Z;
  Notifier_DisableSummary : bool;
  Notifier_Webhook : option webhook.Config;
  Notifier_AMQP : option amqp.Config;
  Notifier_STOMP : option stomp.Config;
}.

Record Updaters := {
  Sets : list string;
  Updaters_Config : gomap yaml_Node;
}.

(** [Any] is the answer of the method [Auth.Any()]: whether the
    authentication policy mandates some method. *)
Record Auth := { Any : bool }.

Record Config := {
  Mode_ : Mode;
  Indexer_ : Indexer;
  Matcher_ : Matcher;
  Notifier_ : Notifier;
  Updaters_ : Updaters;
  Auth_ : Auth;
}.

End config.

Module http.
Record Client := { ref : nat }.
End http.

Module libindex.

Record Libindex := { ref : nat }.

Record ScannerConfig := {
  Package : gomap DecodeFunc;
  Dist : gomap DecodeFunc;
  Repo : gomap DecodeFunc;
}.

Record Opts := {
  ConnString : string;
  ScanLockRetry : Z;
  LayerScanConcurrency : Z;
  Migrations : bool;
  Airgap : bool;
  ScannerConfig_ : ScannerConfig;
}.

End libindex.

Module libvuln.

Record Libvuln := { ref : nat }.

Record Opts := {
  MaxConnPool : Z;
  ConnString : string;
  Migrations : bool;
  UpdaterSets : list string;
  UpdateInterval : Z;
  UpdaterConfigs : gmap string DecodeFunc;
  UpdateRetention : Z;
}.

End libvuln.

Module client.
(** [*client.HTTP]: the remote client, usable as an indexer and as a
    matcher. *)
Record HTTP := { ref : nat }.
End client.

(** The interface values held by [Init]: the dynamic type says whether the
    service is the in-process one or the remote client. *)
Module indexer.
Inductive Service :=
| Local (l : libindex.Libindex)
| Remote (r : client.HTTP).
End indexer.

Module matcher.
Inductive Service :=
| Local (l : libvuln.Libvuln)
| Remote (r : client.HTTP).
End matcher.

Module notifier.

(** The only implementation is the in-process one. *)
Inductive Service := Local (ref : nat).

Record Opts := {
  DeliveryInterval : Z;
  ConnString : string;
  Indexer : indexer.Service;
  Matcher : matcher.Service;
  Client : http.Client;
  Migrations : bool;
  PollInterval : Z;
  DisableSummary : bool;
  Webhook : option webhook.Config;
  AMQP : option amqp.Config;
  STOMP : option stomp.Config;
}.

End notifier.

(** ** Errors returned by [Services] *)

Inductive fmt_arg :=
| ArgError (err : ForeignError)
| ArgMode (m : config.Mode).

Inductive error :=
| Foreign (err : ForeignError)
    (* [return err]: the collaborator's error, as it is *)
| ErrNotInitialized (Msg : string)
    (* [clairerror.ErrNotInitialized{Msg: ...}], by value or by pointer *)
| fmt_Errorf (format : string) (a : fmt_arg).
    (* [fmt.Errorf(format, a)] *)

(** ** Calls and their trace *)

Inductive event :=
| EvLog (msg : string)
| EvLibindexNew (opts : libindex.Opts) (r : returned libindex.Libindex)
| EvLibvulnNew (opts : libvuln.Opts) (r : returned libvuln.Libvuln)
| EvClient (cl : jwt.Claims) (r : returned (http.Client * bool))
| EvNewHTTP (addr : string) (c : http.Client) (r : returned client.HTTP)
| EvNotifierNew (opts : notifier.Opts) (r : returned notifier.Service).

(** The collaborators.  Each answers from the [World] it finds and leaves
    a [World] behind (connections opened, migrations run, keys used).
    [map_range] is the Go runtime: the order in which each of the loops
    over a configuration map (0: Package, 1: Dist, 2: Repo, 3: the
    updaters) visits the entries of the map, which Go leaves
    unspecified. *)
Record Env (World : Type) := {
  map_range : nat → gmap string yaml_Node → list (string * yaml_Node);
  libindex_New : libindex.Opts → World → returned libindex.Libindex * World;
  libvuln_New : libvuln.Opts → World → returned libvuln.Libvuln * World;
  config_Client :
    config.Config → jwt.Claims → World → returned (http.Client * bool) * World;
  client_NewHTTP :
    string → http.Client → World → returned client.HTTP * World;
  notifier_New : notifier.Opts → World → returned notifier.Service * World;
}.
Arguments map_range {World} _ _ _.
Arguments libindex_New {World} _ _ _.
Arguments libvuln_New {World} _ _ _.
Arguments config_Client {World} _ _ _ _.
Arguments client_NewHTTP {World} _ _ _ _.
Arguments notifier_New {World} _ _ _.

(** State and trace passing. *)
Definition M (World A : Type) : Type := World → A * World * list event.

Definition M_ret {World A} (a : A) : M World A := λ w, (a, w, []).

Definition M_bind {World A B} (m : M World A) (k : A → M World B) : M World B :=
  λ w, let '(a, w1, t1) := m w in
       let '(b, w2, t2) := k a w1 in
       (b, w2, t1 ++ t2).

(** A call: ask the environment, record the question and the answer. *)
Definition call {World A} (ask : World → A * World) (ev : A → event) : M World A :=
  λ w, let '(a, w1) := ask w in (a, w1, [ev a]).

#[export] Instance M_mret {World} : MRet (M World) := λ A, @M_ret World A.
#[export] Instance M_mbind {World} : MBind (M World) := λ A B k m, M_bind m k.

(** ** The initialiser *)

Module initialize.

(** [DefaultUpdatePeriod] and [NotifierIssuer], as declared. *)
Definition DefaultUpdatePeriod : Z := (30 * time.Minute)%Z.
Definition NotifierIssuer : string := "clair-notifier".

(** Modelled from the spec: the declaration of [Init] is not among the
    sources.  [conf] is the configuration [Services] reads; the three
    handles are the fields it assigns, [None] being Go's [nil]. *)
Record Init := {
  conf : config.Config;
  Indexer : option indexer.Service;
  Matcher : option matcher.Service;
  Notifier : option notifier.Service;
}.

(** The loop
    [for name, node := range src { dst[name] = node.Decode }]
    into a fresh map, the range visiting the entries in the order
    [order].  The range variable [node] is one variable for the whole
    loop (Go before 1.22, the Go of these sources), and what is stored
    under each name is [(&node).Decode]: the
    state of the loop is what [node] holds and the names stored so far.
    When the loop is over [node] keeps what the last iteration put
    there, and that is what every stored method value decodes. *)
Definition range_Decode_in (order : list (string * yaml_Node)) :
    gmap string DecodeFunc :=
  let loop :=
    foldl (λ (state : option yaml_Node * gset string) entry,
             (Some entry.2, {[entry.1]} ∪ state.2))
      (None, ∅) order in
  match loop.1 with
  | Some held => gset_to_gmap (Decode held) loop.2
  | None => ∅
  end.

(** The loop over the map [src], visited as [visit] says. *)
Definition range_Decode
    (visit : gmap string yaml_Node → list (string * yaml_Node))
    (src : gmap string yaml_Node) : gmap string DecodeFunc :=
  range_Decode_in (visit src).

(** [if src != nil { dst = make(...); for ... }]: a nil map stays nil. *)
Definition scanner_decoders
    (visit : gmap string yaml_Node → list (string * yaml_Node))
    (src : gomap yaml_Node) : gomap DecodeFunc :=
  match src with
  | None => None
  | Some entries => Some (range_Decode visit entries)
  end.

(** The [libindex.Opts] of lines 40-64 and, word for word, 115-139. *)
Definition indexer_Opts
    (range : nat → gmap string yaml_Node → list (string * yaml_Node))
    (c : config.Config) : libindex.Opts :=
  let ix := config.Indexer_ c in
  {| libindex.ConnString := config.Indexer_ConnString ix;
     libindex.ScanLockRetry :=
       int_wrap 64 (int_wrap 64 (config.Indexer_ScanLockRetry ix) * time.Second);
     libindex.LayerScanConcurrency := config.Indexer_LayerScanConcurrency ix;
     libindex.Migrations := config.Indexer_Migrations ix;
     libindex.Airgap := config.Indexer_Airgap ix;
     libindex.ScannerConfig_ :=
       {| libindex.Package :=
            scanner_decoders (range 0%nat) (config.Package (config.Scanner ix));
          libindex.Dist :=
            scanner_decoders (range 1%nat) (config.Dist (config.Scanner ix));
          libindex.Repo :=
            scanner_decoders (range 2%nat) (config.Repo (config.Scanner ix)) |} |}.

(** [updaterConfigs] and the [libvuln.Opts] of lines 69-81 and, word for
    word, 147-160.  The map is made whatever is configured, and a range
    over a nil map does nothing. *)
Definition matcher_Opts
    (range : nat → gmap string yaml_Node → list (string * yaml_Node))
    (c : config.Config) : libvuln.Opts :=
  let updaterConfigs :=
    match config.Updaters_Config (config.Updaters_ c) with
    | None => ∅
    | Some entries => range_Decode (range 3%nat) entries
    end in
  let mc := config.Matcher_ c in
  {| libvuln.MaxConnPool := int_wrap 32 (config.Matcher_MaxConnPool mc);
     libvuln.ConnString := config.Matcher_ConnString mc;
     libvuln.Migrations := config.Matcher_Migrations mc;
     libvuln.UpdaterSets := config.Sets (config.Updaters_ c);
     libvuln.UpdateInterval := config.Matcher_Period mc;
     libvuln.UpdaterConfigs := updaterConfigs;
     libvuln.UpdateRetention := config.Matcher_UpdateRetention mc |}.

Section Services.

Context {World : Type} (env : Env World).

(** [httptransport.IntraserviceIssuer]: declared outside the sources,
    hence a parameter. *)
Variable IntraserviceIssuer : string.

Definition intraserviceClaim : jwt.Claims := {| jwt.Issuer := IntraserviceIssuer |}.
Definition notifierClaim : jwt.Claims := {| jwt.Issuer := NotifierIssuer |}.

Definition log_Info (msg : string) : M World unit :=
  λ w, (tt, w, [EvLog msg]).

Definition Services (i : Init) : M World (Init * option error) :=
  let c := conf i in
  log_Info "begin service initialization";;
  match config.Mode_ c with
  | config.ComboMode =>
      let opts := indexer_Opts (map_range env) c in
      r ← call (libindex_New env opts) (EvLibindexNew opts);
      match r with
      | failed err =>
          mret (i, Some (ErrNotInitialized
                           ("failed to initialize libindex: " +:+ Error err)))
      | ok libI =>
      let vopts := matcher_Opts (map_range env) c in
      r ← call (libvuln_New env vopts) (EvLibvulnNew vopts);
      match r with
      | failed err =>
          mret (i, Some (fmt_Errorf "failed to initialize libvuln: %v" (ArgError err)))
      | ok libV =>
      r ← call (config_Client env c notifierClaim) (EvClient notifierClaim);
      match r with
      | failed err => mret (i, Some (Foreign err))
      | ok (cl, _) =>
      let nopts :=
        {| notifier.DeliveryInterval :=
             config.Notifier_DeliveryInterval (config.Notifier_ c);
           notifier.ConnString := config.Notifier_ConnString (config.Notifier_ c);
           notifier.Indexer := indexer.Local libI;
           notifier.Matcher := matcher.Local libV;
           notifier.Client := cl;
           notifier.Migrations := config.Notifier_Migrations (config.Notifier_ c);
           notifier.PollInterval := config.Notifier_PollInterval (config.Notifier_ c);
           notifier.DisableSummary :=
             config.Notifier_DisableSummary (config.Notifier_ c);
           notifier.Webhook := config.Notifier_Webhook (config.Notifier_ c);
           notifier.AMQP := config.Notifier_AMQP (config.Notifier_ c);
           notifier.STOMP := config.Notifier_STOMP (config.Notifier_ c) |} in
      r ← call (notifier_New env nopts) (EvNotifierNew nopts);
      match r with
      | failed err =>
          mret (i, Some (ErrNotInitialized
                           ("notifier failed to initialize: " +:+ Error err)))
      | ok n =>
          mret ({| conf := c;
                   Indexer := Some (indexer.Local libI);
                   Matcher := Some (matcher.Local libV);
                   Notifier := Some n |}, None)
      end end end end
  | config.IndexerMode =>
      let opts := indexer_Opts (map_range env) c in
      r ← call (libindex_New env opts) (EvLibindexNew opts);
      match r with
      | failed err =>
          mret (i, Some (ErrNotInitialized
                           ("failed to initialize libindex: " +:+ Error err)))
      | ok libI =>
          mret ({| conf := c;
                   Indexer := Some (indexer.Local libI);
                   Matcher := None;
                   Notifier := Notifier i |}, None)
      end
  | config.MatcherMode =>
      let vopts := matcher_Opts (map_range env) c in
      r ← call (libvuln_New env vopts) (EvLibvulnNew vopts);
      match r with
      | failed err =>
          mret (i, Some (fmt_Errorf "failed to initialize libvuln: %v" (ArgError err)))
      | ok libV =>
      r ← call (config_Client env c intraserviceClaim) (EvClient intraserviceClaim);
      match r with
      | failed err => mret (i, Some (Foreign err))
      | ok (cl, auth) =>
      if negb auth && config.Any (config.Auth_ c)
      then mret (i, Some (ErrNotInitialized
                            "client authorization required but not provided"))
      else
      let addr := config.Matcher_IndexerAddr (config.Matcher_ c) in
      r ← call (client_NewHTTP env addr cl) (EvNewHTTP addr cl);
      match r with
      | failed err => mret (i, Some (Foreign err))
      | ok remoteIndexer =>
          mret ({| conf := c;
                   Indexer := Some (indexer.Remote remoteIndexer);
                   Matcher := Some (matcher.Local libV);
                   Notifier := Notifier i |}, None)
      end end end
  | config.NotifierMode =>
      r ← call (config_Client env c intraserviceClaim) (EvClient intraserviceClaim);
      match r with
      | failed err => mret (i, Some (Foreign err))
      | ok (cl, auth) =>
      if negb auth && config.Any (config.Auth_ c)
      then mret (i, Some (ErrNotInitialized
                            "client authorization required but not provided"))
      else
      let iaddr := config.Notifier_IndexerAddr (config.Notifier_ c) in
      r ← call (client_NewHTTP env iaddr cl) (EvNewHTTP iaddr cl);
      match r with
      | failed err => mret (i, Some (Foreign err))
      | ok remoteIndexer =>
      let maddr := config.Notifier_MatcherAddr (config.Notifier_ c) in
      r ← call (client_NewHTTP env maddr cl) (EvNewHTTP maddr cl);
      match r with
      | failed err => mret (i, Some (Foreign err))
      | ok remoteMatcher =>
      r ← call (config_Client env c notifierClaim) (EvClient notifierClaim);
      match r with
      | failed err => mret (i, Some (Foreign err))
      | ok (cl, _) =>
      let nopts :=
        {| notifier.DeliveryInterval :=
             config.Notifier_DeliveryInterval (config.Notifier_ c);
           notifier.ConnString := config.Notifier_ConnString (config.Notifier_ c);
           notifier.Indexer := indexer.Remote remoteIndexer;
           notifier.Matcher := matcher.Remote remoteMatcher;
           notifier.Client := cl;
           notifier.Migrations := config.Notifier_Migrations (config.Notifier_ c);
           notifier.PollInterval := config.Notifier_PollInterval (config.Notifier_ c);
           (* [DisableSummary] is not set: it keeps its zero value *)
           notifier.DisableSummary := false;
           notifier.Webhook := config.Notifier_Webhook (config.Notifier_ c);
           notifier.AMQP := config.Notifier_AMQP (config.Notifier_ c);
           notifier.STOMP := config.Notifier_STOMP (config.Notifier_ c) |} in
      r ← call (notifier_New env nopts) (EvNotifierNew nopts);
      match r with
      | failed err =>
          mret (i, Some (ErrNotInitialized
                           ("notifier failed to initialize: " +:+ Error err)))
      | ok n =>
          mret ({| conf := c;
                   Indexer := Some (indexer.Remote remoteIndexer);
                   Matcher := Some (matcher.Remote remoteMatcher);
                   Notifier := Some n |}, None)
      end end end end end
  | config.OtherMode _ =>
      mret (i, Some (fmt_Errorf "could not determine passed in mode: %v"
                       (ArgMode (config.Mode_ c))))
  end.

End Services.

End initialize.

Import initialize.

(** * The document generator ([openapigen])

    [main] reads the YAML description, converts it with [convert],
    marshals it, and emits a Go declaration of two string constants: the
    JSON text and its content hash.  The decoder, [json.Marshal],
    [sha256.Sum256] and [strconv] are parameters. *)

Module openapigen.

(** A dynamic value ([interface{}]) as the YAML decoder builds it.  The
    entries of a map are listed once each, under distinct keys; [K] is the
    type of everything that is not one of the three containers. *)
Inductive value (K : Type) : Type :=
| Dyn (x : K)
| Slice (x : list (value K))
| MapI (x : list (K * value K))
| MapS (x : list (string * value K)).
Arguments Dyn {K} x.
Arguments Slice {K} x.
Arguments MapI {K} x.
Arguments MapS {K} x.

(** What [convert] returns and [json.Marshal] is given: no
    [map[interface{}]interface{}] is left. *)
Inductive json (K : Type) : Type :=
| JDyn (x : K)
| JArray (x : list (json K))
| JObject (x : gmap string (json K)).
Arguments JDyn {K} x.
Arguments JArray {K} x.
Arguments JObject {K} x.

(** The order in which one run visits the entries of the maps it ranges
    over: Go leaves it unspecified, and it changes from run to run. *)
Definition range_order : Type := ∀ A : Type, list A → list A.

Definition permutes (order : range_order) : Prop :=
  ∀ (A : Type) (l : list A), order A l ≡ₚ l.

Definition in_listed_order : range_order := λ A l, l.
Definition in_reverse_order : range_order := λ A l, reverse l.

Definition dquote : ascii := "034"%char.
Definition backquote : ascii := "096"%char.
Definition carriage_return : ascii := "013"%char.

(** [%x] on one byte: two lowercase hexadecimal digits. *)
Definition hex_digit (n : N) : ascii :=
  match n with
  | 0 => "0" | 1 => "1" | 2 => "2" | 3 => "3" | 4 => "4" | 5 => "5"
  | 6 => "6" | 7 => "7" | 8 => "8" | 9 => "9" | 10 => "a" | 11 => "b"
  | 12 => "c" | 13 => "d" | 14 => "e" | _ => "f"
  end%N%char.

(** [%x] on a byte array. *)
Fixpoint fmt_x (bytes : string) : string :=
  match bytes with
  | EmptyString => EmptyString
  | String b rest =>
      let n := Ascii.N_of_ascii b in
      String (hex_digit (n / 16)) (String (hex_digit (n `mod` 16)) (fmt_x rest))
  end.

(** The value of a raw string literal, after its opening back quote: the
    characters up to the closing back quote, carriage returns dropped. *)
Fixpoint raw_string_value (s : string) : option string :=
  match s with
  | EmptyString => None
  | String c rest =>
      if Ascii.eqb c backquote
      then match rest with EmptyString => Some EmptyString | _ => None end
      else (λ v, if Ascii.eqb c carriage_return then v else String c v)
             <$> raw_string_value rest
  end.

Section tool.

Context {K : Type}.

(** [fmt.Sprint] on a map key. *)
Variable fmt_Sprint : K → string.

Variable order : range_order.

(** [convert].  A range over a map stores under each key the conversion
    of the value found there, in the order of the run; the stored value
    does not depend on when the entry is visited. *)
Fixpoint convert (i : value K) : json K :=
  match i with
  | MapI x =>
      let m2 := ∅ in
      JObject (foldl (λ m2 kv, <[fmt_Sprint kv.1 := kv.2]> m2) m2
                 (order _ (map (λ kv, (kv.1, convert kv.2)) x)))
  | Slice x => JArray (map convert x)
  | MapS x =>
      JObject (foldl (λ m kv, <[kv.1 := kv.2]> m) ∅
                 (order _ (map (λ kv, (kv.1, convert kv.2)) x)))
  | Dyn x => JDyn x
  end.

(** The decoder, [json.Marshal], [sha256.Sum256] and the two functions of
    [strconv] behind [%#q]. *)
Variable yaml_Decode : string → returned (list (K * value K)).
Variable json_Marshal : json K → returned string.
Variable sha256_Sum256 : string → string.
Variable strconv_CanBackquote : string → bool.
Variable strconv_Quote : string → string.
Variable strconv_Unquote : string → option string.

(** [fmt.Sprintf("%#q", s)]. *)
Definition Sprintf_sharp_q (s : string) : string :=
  if strconv_CanBackquote s
  then String backquote (s +:+ String backquote EmptyString)
  else strconv_Quote s.

(** The string a Go string literal denotes. *)
Definition literal_value (lit : string) : option string :=
  match lit with
  | String c rest =>
      if Ascii.eqb c backquote then raw_string_value rest else strconv_Unquote lit
  | EmptyString => None
  end.

Record generated := {
  openapiJSON : string;       (* the literal of [_openapiJSON] *)
  openapiJSONEtag : string;   (* the literal of [_openapiJSONEtag] *)
}.

(** [main], from the text of the input file to the two literals of the
    generated declaration; [failed] is [log.Fatal]. *)
Definition main (input : string) : returned generated :=
  match yaml_Decode input with
  | failed err => failed err
  | ok tmp =>
      match json_Marshal (convert (MapI tmp)) with
      | failed err => failed err
      | ok embed =>
          let ck := sha256_Sum256 embed in
          ok {| openapiJSON := Sprintf_sharp_q embed;
                openapiJSONEtag :=
                  String backquote
                    (String dquote
                       (fmt_x ck +:+ String dquote (String backquote EmptyString))) |}
      end
  end.

End tool.

(** The value is one Go can hold: the keys of a map are distinct. *)
Fixpoint well_formed {K} (i : value K) : Prop :=
  match i with
  | Dyn _ => True
  | Slice x => foldr (λ v rest, well_formed v ∧ rest) True x
  | MapI x => NoDup x.*1 ∧ foldr (λ kv rest, well_formed kv.2 ∧ rest) True x
  | MapS x => NoDup x.*1 ∧ foldr (λ kv rest, well_formed kv.2 ∧ rest) True x
  end.

(** No two keys of one [map[interface{}]interface{}] print alike. *)
Fixpoint keys_print_apart {K} (fmt_Sprint : K → string) (i : value K) : Prop :=
  match i with
  | Dyn _ => True
  | Slice x => foldr (λ v rest, keys_print_apart fmt_Sprint v ∧ rest) True x
  | MapI x =>
      NoDup (fmt_Sprint <$> x.*1) ∧
      foldr (λ kv rest, keys_print_apart fmt_Sprint kv.2 ∧ rest) True x
  | MapS x => foldr (λ kv rest, keys_print_apart fmt_Sprint kv.2 ∧ rest) True x
  end.

Definition lowercase_hex (c : ascii) : bool :=
  let n := Ascii.N_of_ascii c in
  ((48 <=? n) && (n <=? 57) || (97 <=? n) && (n <=? 102))%N.

Fixpoint string_forallb (p : ascii → bool) (s : string) : bool :=
  match s with
  | EmptyString => true
  | String c rest => p c && string_forallb p rest
  end.

(** Neither a back quote nor a carriage return. *)
Definition raw_safe (c : ascii) : bool :=
  negb (Ascii.eqb c backquote) && negb (Ascii.eqb c carriage_return).

End openapigen.

(** ** The topology table of the specification (section 4.1) *)

Definition local_indexer (h : option indexer.Service) : bool :=
  match h with Some (indexer.Local _) => true | _ => false end.
Definition remote_indexer (h : option indexer.Service) : bool :=
  match h with Some (indexer.Remote _) => true | _ => false end.
Definition local_matcher (h : option matcher.Service) : bool :=
  match h with Some (matcher.Local _) => true | _ => false end.
Definition remote_matcher (h : option matcher.Service) : bool :=
  match h with Some (matcher.Remote _) => true | _ => false end.
Definition local_notifier (h : option notifier.Service) : bool :=
  match h with Some (notifier.Local _) => true | _ => false end.
Definition absent {A} (h : option A) : bool :=
  match h with None => true | Some _ => false end.

(** Follows the words of the specification, not the code: one row per
    mode, no row for a value that is not a mode. *)
Definition table_4_1 (m : config.Mode) (i : Init) : bool :=
  match m with
  | config.ComboMode =>
      local_indexer (Indexer i) && local_matcher (Matcher i) && local_notifier (Notifier i)
  | config.IndexerMode =>
      local_indexer (Indexer i) && absent (Matcher i) && absent (Notifier i)
  | config.MatcherMode =>
      remote_indexer (Indexer i) && local_matcher (Matcher i) && absent (Notifier i)
  | config.NotifierMode =>
      remote_indexer (Indexer i) && remote_matcher (Matcher i) && local_notifier (Notifier i)
  | config.OtherMode _ => false
  end.

Definition named_modes : list config.Mode :=
  [config.ComboMode; config.IndexerMode; config.MatcherMode; config.NotifierMode].

(** ** Reading a trace *)

(** The error a collaborator answered with, when its call failed. *)
Definition failure (ev : event) : option ForeignError :=
  match ev with
  | EvLibindexNew _ (failed err)
  | EvLibvulnNew _ (failed err)
  | EvClient _ (failed err)
  | EvNewHTTP _ _ (failed err)
  | EvNotifierNew _ (failed err) => Some err
  | _ => None
  end.

Definition is_libvuln_New (ev : event) : bool :=
  match ev with EvLibvulnNew _ _ => true | _ => false end.

Definition notifier_New_opts (ev : event) : option notifier.Opts :=
  match ev with EvNotifierNew opts _ => Some opts | _ => None end.

(** The text of the two [ErrNotInitialized] messages and of the
    [fmt.Errorf] that [Services] wraps a failed call in. *)
Definition wrapped (ev : event) : option error :=
  match ev with
  | EvLibindexNew _ (failed err) =>
      Some (ErrNotInitialized ("failed to initialize libindex: " +:+ Error err))
  | EvLibvulnNew _ (failed err) =>
      Some (fmt_Errorf "failed to initialize libvuln: %v" (ArgError err))
  | EvClient _ (failed err) | EvNewHTTP _ _ (failed err) =>
      Some (Foreign err)
  | EvNotifierNew _ (failed err) =>
      Some (ErrNotInitialized ("notifier failed to initialize: " +:+ Error err))
  | _ => None
  end.

Definition auth_required : error :=
  ErrNotInitialized "client authorization required but not provided".

(** [dst] holds the decoders of [src]: none when [src] is nil or empty,
    as many entries as [src], under the same names, each the [Decode] of
    the node under that name. *)
Definition decoders_of (src : gomap yaml_Node) (dst : gomap DecodeFunc) : Prop :=
  (go_len src = 0%nat → ∀ name, go_lookup dst name = None) ∧
  go_len dst = go_len src ∧
  (∀ name, is_Some (go_lookup dst name) ↔ is_Some (go_lookup src name)) ∧
  (∀ name node, go_lookup src name = Some node →
                go_lookup dst name = Some (Decode node)).

(** ** Scripted environments, for concrete runs *)

Module scenario.

Record Script := {
  libindex_answer : returned libindex.Libindex;
  libvuln_answer : returned libvuln.Libvuln;
  client_answer : jwt.Claims → returned (http.Client * bool);
  http_answer : string → returned client.HTTP;
  notifier_answer : returned notifier.Service;
}.

(** The world counts the calls answered so far; every range visits the
    entries as [visit] says. *)
Definition scripted_in
    (visit : gmap string yaml_Node → list (string * yaml_Node))
    (s : Script) : Env nat :=
  {| map_range _ := visit;
     libindex_New _ w := (libindex_answer s, S w);
     libvuln_New _ w := (libvuln_answer s, S w);
     config_Client _ cl w := (client_answer s cl, S w);
     client_NewHTTP addr _ w := (http_answer s addr, S w);
     notifier_New _ w := (notifier_answer s, S w) |}.

(** The entries by name, from the least, and from the greatest. *)
Definition by_name (m : gmap string yaml_Node) : list (string * yaml_Node) :=
  merge_sort (λ a b : string * yaml_Node, String.le a.1 b.1) (map_to_list m).

Definition by_name_backwards (m : gmap string yaml_Node) :
    list (string * yaml_Node) :=
  reverse (by_name m).

Definition scripted (s : Script) : Env nat :=
  {| map_range _ := by_name;
     libindex_New _ w := (libindex_answer s, S w);
     libvuln_New _ w := (libvuln_answer s, S w);
     config_Client _ cl w := (client_answer s cl, S w);
     client_NewHTTP addr _ w := (http_answer s addr, S w);
     notifier_New _ w := (notifier_answer s, S w) |}.

Definition IntraserviceIssuer : string := "clair-intraservice".

Definition is_notifier_claim (cl : jwt.Claims) : bool :=
  bool_decide (jwt.Issuer cl = NotifierIssuer).

Definition all_ok : Script :=
  {| libindex_answer := ok {| libindex.ref := 1 |};
     libvuln_answer := ok {| libvuln.ref := 2 |};
     client_answer cl := ok ({| http.ref := 3 |}, true);
     http_answer addr := ok {| client.ref := 4 |};
     notifier_answer := ok (notifier.Local 5) |}.

(** Every call succeeds, but the client built with the notifier claim is
    not authenticated. *)
Definition notifier_client_unauthenticated : Script :=
  {| libindex_answer := ok {| libindex.ref := 1 |};
     libvuln_answer := ok {| libvuln.ref := 2 |};
     client_answer cl := ok ({| http.ref := 3 |}, negb (is_notifier_claim cl));
     http_answer addr := ok {| client.ref := 4 |};
     notifier_answer := ok (notifier.Local 5) |}.

(** Every client comes back unauthenticated. *)
Definition unauthenticated : Script :=
  {| libindex_answer := ok {| libindex.ref := 1 |};
     libvuln_answer := ok {| libvuln.ref := 2 |};
     client_answer cl := ok ({| http.ref := 3 |}, false);
     http_answer addr := ok {| client.ref := 4 |};
     notifier_answer := ok (notifier.Local 5) |}.

(** Signing fails; the local services can be built. *)
Definition signing_fails : Script :=
  {| libindex_answer := ok {| libindex.ref := 1 |};
     libvuln_answer := ok {| libvuln.ref := 2 |};
     client_answer cl := failed {| Error := "signing failed" |};
     http_answer addr := ok {| client.ref := 4 |};
     notifier_answer := ok (notifier.Local 5) |}.

(** The indexer is built, the matcher is not. *)
Definition matcher_fails : Script :=
  {| libindex_answer := ok {| libindex.ref := 1 |};
     libvuln_answer := failed {| Error := "connection refused" |};
     client_answer cl := ok ({| http.ref := 3 |}, true);
     http_answer addr := ok {| client.ref := 4 |};
     notifier_answer := ok (notifier.Local 5) |}.

Definition scanner (package : gomap yaml_Node) : config.ScannerConfig :=
  {| config.Package := package; config.Dist := Some ∅; config.Repo := None |}.

Definition two_ecosystems : gmap string yaml_Node :=
  <["rpm" := {| node_text := "a: 1" |}]>
    (<["python" := {| node_text := "b: 2" |}]> ∅).

(** A configuration: mode, whether authentication is mandated, whether
    the notifier's summary is disabled. *)
Definition a_config (m : config.Mode) (any summary_off : bool) : config.Config :=
  {| config.Mode_ := m;
     config.Indexer_ :=
       {| config.Indexer_ConnString := "host=db-indexer";
          config.Indexer_ScanLockRetry := 10;
          config.Indexer_LayerScanConcurrency := 5;
          config.Indexer_Migrations := true;
          config.Indexer_Airgap := false;
          config.Scanner := scanner (Some two_ecosystems) |};
     config.Matcher_ :=
       {| config.Matcher_ConnString := "host=db-matcher";
          config.Matcher_MaxConnPool := 100;
          config.Matcher_IndexerAddr := "http://indexer:8080";
          config.Matcher_Migrations := true;
          config.Matcher_Period := DefaultUpdatePeriod;
          config.Matcher_UpdateRetention := 2 |};
     config.Notifier_ :=
       {| config.Notifier_ConnString := "host=db-notifier";
          config.Notifier_IndexerAddr := "http://indexer:8080";
          config.Notifier_MatcherAddr := "http://matcher:8080";
          config.Notifier_Migrations := true;
          config.Notifier_PollInterval := 30 * time.Second;
          config.Notifier_DeliveryInterval := 60 * time.Second;
          config.Notifier_DisableSummary := summary_off;
          config.Notifier_Webhook := Some {| webhook.raw := "target: http://hook" |};
          config.Notifier_AMQP := None;
          config.Notifier_STOMP := None |};
     config.Updaters_ := {| config.Sets := ["rhel"]; config.Updaters_Config := None |};
     config.Auth_ := {| config.Any := any |} |}.

(** An [Init] as left by its constructor: no handle yet. *)
Definition fresh (c : config.Config) : Init :=
  {| conf := c; Indexer := None; Matcher := None; Notifier := None |}.

(** An [Init] whose [Notifier] field already holds a handle. *)
Definition with_notifier (c : config.Config) : Init :=
  {| conf := c; Indexer := None; Matcher := None;
     Notifier := Some (notifier.Local 9) |}.

Definition run (s : Script) (i : Init) : Init * option error * nat * list event :=
  Services (scripted s) IntraserviceIssuer i 0%nat.

End scenario.

(** ** Documents and stand-ins, for concrete runs of the generator *)

Import openapigen.

Module document.

(** The scalars the decoder builds, floating point numbers and
    timestamps apart. *)
Inductive scalar :=
| Null
| Bool (b : bool)
| Int (z : Z)
| Str (s : string).

#[export] Instance scalar_eq_dec : EqDecision scalar.
Proof. solve_decision. Defined.

(** [fmt.Sprint] on them. *)
Definition Sprint (x : scalar) : string :=
  match x with
  | Null => "<nil>"
  | Bool true => "true"
  | Bool false => "false"
  | Int z => pretty z
  | Str s => s
  end.

(** Stand-ins for the library functions, to let the model run.  They
    satisfy what the theorems assume of the real ones; they are not
    models of them. *)
Definition Decode_as (tmp : list (scalar * value scalar)) :
    string → returned (list (scalar * value scalar)) :=
  λ _, ok tmp.

Definition quoted (s : string) : string :=
  String dquote (s +:+ String dquote EmptyString).

Definition comma_separated (items : list string) : string :=
  match items with
  | [] => EmptyString
  | first :: others => foldl (λ acc item, acc +:+ "," +:+ item) first others
  end.

Fixpoint render (j : json scalar) : string :=
  match j with
  | JDyn Null => "null"
  | JDyn (Bool b) => if b then "true" else "false"
  | JDyn (Int z) => pretty z
  | JDyn (Str s) => quoted s
  | JArray x => "[" +:+ comma_separated (map render x) +:+ "]"
  | JObject x =>
      "{" +:+ comma_separated
                ((λ kv : string * string, quoted kv.1 +:+ ":" +:+ kv.2) <$>
                   merge_sort (λ a b : string * string, String.le a.1 b.1)
                     (map_fold (λ k v acc, (k, render v) :: acc) [] x))
          +:+ "}"
  end.

Definition Marshal (j : json scalar) : returned string := ok (render j).

(** Not a hash: the text itself. *)
Definition Sum (text : string) : string := text.

Definition CanBackquote (s : string) : bool := string_forallb raw_safe s.

Definition Quote : string → string := quoted.

Fixpoint but_last (s : string) : string :=
  match s with
  | EmptyString => EmptyString
  | String c EmptyString => EmptyString
  | String c rest => String c (but_last rest)
  end.

Definition Unquote (lit : string) : option string :=
  match lit with
  | String _ rest => Some (but_last rest)
  | EmptyString => None
  end.

Definition generate (order : range_order) (tmp : list (scalar * value scalar)) :
    returned generated :=
  main Sprint order (Decode_as tmp) Marshal Sum CanBackquote Quote "openapi.yaml".

(** [{True: a, "true": b}]: two keys, a boolean and a string, that print
    alike. *)
Definition colliding : list (scalar * value scalar) :=
  [(Bool true, Dyn (Str "a")); (Str "true", Dyn (Str "b"))].

(** An API description in small: string keys, and status codes as
    integer keys. *)
Definition description : list (scalar * value scalar) :=
  [(Str "openapi", Dyn (Str "3.0.2"));
   (Str "paths",
    MapS [("/index_report",
           MapI [(Int 201, Dyn (Str "created")); (Int 404, Dyn (Str "not found"))])]);
   (Str "tags", Slice [Dyn (Str "indexer"); Dyn (Str "matcher")])].

End document.

(** ** The decoders a run hands over *)

(** Every range of the run visits each entry of its map once. *)
Definition visits_every_entry {World} (env : Env World) : Prop :=
  ∀ site m, map_range env site m ≡ₚ map_to_list m.

(** The Package decoders of the first call a run makes after logging,
    when that call is [libindex.New]. *)
Definition Package_given (tr : list event) : gomap DecodeFunc :=
  match tr !! 1%nat with
  | Some (EvLibindexNew opts _) => libindex.Package (libindex.ScannerConfig_ opts)
  | _ => None
  end.

(** ** More ways to read a trace *)

(** Whom an event is a call to. *)
Inductive callee :=
| ToLogger
| ToLibindexNew
| ToLibvulnNew
| ToConfigClient
| ToNewHTTP
| ToNotifierNew.

Definition callee_of (ev : event) : callee :=
  match ev with
  | EvLog _ => ToLogger
  | EvLibindexNew _ _ => ToLibindexNew
  | EvLibvulnNew _ _ => ToLibvulnNew
  | EvClient _ _ => ToConfigClient
  | EvNewHTTP _ _ _ => ToNewHTTP
  | EvNotifierNew _ _ => ToNotifierNew
  end.

(** The calls of a run in which nothing fails, mode by mode, in the order
    of the source. *)
Definition call_plan (m : config.Mode) : list callee :=
  match m with
  | config.ComboMode =>
      [ToLogger; ToLibindexNew; ToLibvulnNew; ToConfigClient; ToNotifierNew]
  | config.IndexerMode => [ToLogger; ToLibindexNew]
  | config.MatcherMode => [ToLogger; ToLibvulnNew; ToConfigClient; ToNewHTTP]
  | config.NotifierMode =>
      [ToLogger; ToConfigClient; ToNewHTTP; ToNewHTTP; ToConfigClient; ToNotifierNew]
  | config.OtherMode _ => [ToLogger]
  end.

(** The configured address of the remote indexer, and of the remote
    matcher, for the modes that have one. *)
Definition indexer_address (c : config.Config) : option string :=
  match config.Mode_ c with
  | config.MatcherMode => Some (config.Matcher_IndexerAddr (config.Matcher_ c))
  | config.NotifierMode => Some (config.Notifier_IndexerAddr (config.Notifier_ c))
  | _ => None
  end.

Definition matcher_address (c : config.Config) : option string :=
  match config.Mode_ c with
  | config.NotifierMode => Some (config.Notifier_MatcherAddr (config.Notifier_ c))
  | _ => None
  end.

(** The bounds of Go's [int32], and the largest number of seconds whose
    nanoseconds fit an [int64]. *)
Definition MinInt32 : Z := (- 2 ^ 31)%Z.
Definition MaxInt32 : Z := (2 ^ 31 - 1)%Z.
Definition MaxInt64 : Z := (2 ^ 63 - 1)%Z.
Definition max_whole_seconds : Z := (MaxInt64 `div` time.Second)%Z.

(** ** Reading the generated constants back *)

(** The value of a hexadecimal digit in lower case. *)
Definition unhex_digit (c : ascii) : option N :=
  let n := Ascii.N_of_ascii c in
  if ((48 <=? n) && (n <=? 57))%N then Some (n - 48)%N
  else if ((97 <=? n) && (n <=? 102))%N then Some (n - 87)%N
  else None.

(** The bytes written as pairs of hexadecimal digits. *)
Fixpoint unhex (digits : string) : option string :=
  match digits with
  | EmptyString => Some EmptyString
  | String hi (String lo rest) =>
      match unhex_digit hi, unhex_digit lo, unhex rest with
      | Some h, Some l, Some bytes =>
          Some (String (Ascii.ascii_of_N (16 * h + l)) bytes)
      | _, _, _ => None
      end
  | String _ EmptyString => None
  end.

(** The characters before the closing double quote, which ends the
    string. *)
Fixpoint until_dquote (s : string) : option string :=
  match s with
  | EmptyString => None
  | String c rest =>
      if Ascii.eqb c dquote
      then match rest with EmptyString => Some EmptyString | _ => None end
      else String c <$> until_dquote rest
  end.

(** The digest a content-hash literal stands for: the value of the
    literal is the digest in hexadecimal between double quotes. *)
Definition etag_digest (unquote : string → option string) (lit : string) :
    option string :=
  match literal_value unquote lit with
  | Some (String c rest) =>
      if Ascii.eqb c dquote then until_dquote rest ≫= unhex else None
  | _ => None
  end.

(** No [map[interface{}]interface{}] anywhere in the value. *)
Fixpoint string_keyed {K} (i : value K) : Prop :=
  match i with
  | Dyn _ => True
  | Slice x => foldr (λ v rest, string_keyed v ∧ rest) True x
  | MapI _ => False
  | MapS x => foldr (λ kv rest, string_keyed kv.2 ∧ rest) True x
  end.

(** The fields of an object; nothing else has fields. *)
Definition fields {K} (j : json K) : gmap string (json K) :=
  match j with
  | JObject x => x
  | _ => ∅
  end.

(** ** More configurations and documents, for concrete runs *)

Module more_scenarios.

(** [c] with another pool size for the matcher. *)
Definition with_pool (pool : Z) (c : config.Config) : config.Config :=
  {| config.Mode_ := config.Mode_ c;
     config.Indexer_ := config.Indexer_ c;
     config.Matcher_ :=
       {| config.Matcher_ConnString := config.Matcher_ConnString (config.Matcher_ c);
          config.Matcher_MaxConnPool := pool;
          config.Matcher_IndexerAddr := config.Matcher_IndexerAddr (config.Matcher_ c);
          config.Matcher_Migrations := config.Matcher_Migrations (config.Matcher_ c);
          config.Matcher_Period := config.Matcher_Period (config.Matcher_ c);
          config.Matcher_UpdateRetention :=
            config.Matcher_UpdateRetention (config.Matcher_ c) |};
     config.Notifier_ := config.Notifier_ c;
     config.Updaters_ := config.Updaters_ c;
     config.Auth_ := config.Auth_ c |}.

(** [c] with a configuration for the updaters. *)
Definition with_updaters (nodes : gomap yaml_Node) (c : config.Config) : config.Config :=
  {| config.Mode_ := config.Mode_ c;
     config.Indexer_ := config.Indexer_ c;
     config.Matcher_ := config.Matcher_ c;
     config.Notifier_ := config.Notifier_ c;
     config.Updaters_ :=
       {| config.Sets := config.Sets (config.Updaters_ c);
          config.Updaters_Config := nodes |};
     config.Auth_ := config.Auth_ c |}.

Definition rhel_updater : gmap string yaml_Node :=
  {[ "rhel" := {| node_text := "url: https://mirror/rhel" |} ]}.

Definition two_updaters : gmap string yaml_Node :=
  <["rhel" := {| node_text := "url: https://mirror/rhel" |}]>
    (<["ubuntu" := {| node_text := "url: https://mirror/ubuntu" |}]> ∅).

(** The responses of one path, by status code. *)
Definition responses : list (document.scalar * value document.scalar) :=
  [(document.Int 201, Dyn (document.Str "created"));
   (document.Int 404, Dyn (document.Str "not found"))].

(** A description with string keys only. *)
Definition info : list (string * value document.scalar) :=
  [("title", Dyn (document.Str "ClairV4"));
   ("tags", Slice [Dyn (document.Str "indexer"); Dyn (document.Str "matcher")]);
   ("contact", MapS [("name", Dyn (document.Str "Clair Team"))])].

End more_scenarios.

(** * Theorems about [Services] *)

Ltac unfold_run H :=
  unfold Services, mbind, M_mbind, M_bind, call, log_Info, mret, M_mret, M_ret in H;
  cbn beta iota zeta in H.

(** One collaborator's answer, or one test of the gating condition. *)
Ltac ask_env H :=
  match type of H with
  | context [libindex_New ?e ?o ?w] =>
      destruct (libindex_New e o w) as [[?libI|?err] ?w] eqn:?
  | context [libvuln_New ?e ?o ?w] =>
      destruct (libvuln_New e o w) as [[?libV|?err] ?w] eqn:?
  | context [config_Client ?e ?c ?k ?w] =>
      destruct (config_Client e c k w) as [[[?cl ?auth]|?err] ?w] eqn:?
  | context [client_NewHTTP ?e ?a ?c ?w] =>
      destruct (client_NewHTTP e a c w) as [[?remote|?err] ?w] eqn:?
  | context [notifier_New ?e ?o ?w] =>
      destruct (notifier_New e o w) as [[?n|?err] ?w] eqn:?
  | context [if negb ?a && ?b then _ else _] =>
      destruct (negb a && b) eqn:?
  end; cbn beta iota zeta in H.

(** All the runs of [Services] in the mode at hand, one goal each. *)
Ltac all_runs H :=
  unfold_run H; repeat ask_env H; simplify_eq; cbn [app] in *.

(** Membership in a trace written out. *)
Ltac in_trace H :=
  repeat (apply elem_of_cons in H; destruct H as [H|H]);
  [.. | apply elem_of_nil in H; destruct H]; simplify_eq.

Ltac by_mode i H :=
  unfold Services in H;
  destruct (config.Mode_ (conf i)) eqn:?; all_runs H.

(** ** The decoder maps *)

(** What the loop leaves: the range variable holds the node visited
    last, and the names stored are those visited. *)
Lemma range_loop_state (order : list (string * yaml_Node))
    (held : option yaml_Node) (names : gset string) :
  foldl (λ (state : option yaml_Node * gset string) entry,
           (Some entry.2, {[entry.1]} ∪ state.2))
    (held, names) order =
  (from_option (λ entry, Some entry.2) held (last order),
   list_to_set order.*1 ∪ names).
Proof.
  revert held names. induction order as [|entry order IH]; intros held names.
  - cbn. f_equal. set_solver.
  - cbn [foldl]. rewrite IH, last_cons. cbn. f_equal.
    + by destruct (last order).
    + set_solver.
Qed.

Lemma range_Decode_in_lookup (order : list (string * yaml_Node)) name :
  range_Decode_in order !! name =
  match last order with
  | Some visited_last =>
      if decide (name ∈ order.*1) then Some (Decode visited_last.2) else None
  | None => None
  end.
Proof.
  unfold range_Decode_in. rewrite range_loop_state. cbn.
  destruct (last order) as [visited_last|]; cbn; [|done].
  rewrite lookup_gset_to_gmap. 
  destruct (decide (name ∈ order.*1)) as [Hin|Hin].
  - rewrite option_guard_True by set_solver. done.
  - rewrite option_guard_False by set_solver. done.
Qed.

Lemma range_Decode_in_size (order : list (string * yaml_Node)) :
  NoDup order.*1 → size (range_Decode_in order) = length order.
Proof.
  intros Hnodup. unfold range_Decode_in. rewrite range_loop_state. cbn.
  destruct (last order) as [visited_last|] eqn:Hlast; cbn.
  - rewrite <-size_dom, dom_gset_to_gmap, (right_id_L ∅ (∪)).
    by rewrite size_list_to_set, length_fmap.
  - apply last_None in Hlast as ->. done.
Qed.

(** The names a range visits are the names of the map, once each. *)
Lemma visited_names (src : gmap string yaml_Node) order :
  order ≡ₚ map_to_list src →
  NoDup order.*1 ∧
  length order = size src ∧
  ∀ name, name ∈ order.*1 ↔ is_Some (src !! name).
Proof.
  intros Hperm. split; [|split].
  - rewrite Hperm. apply NoDup_fst_map_to_list.
  - by rewrite Hperm, length_map_to_list.
  - intros name. rewrite Hperm. split.
    + intros ([k v] & -> & Hin)%list_elem_of_fmap.
      apply elem_of_map_to_list in Hin. by eexists.
    + intros [v Hv]. apply list_elem_of_fmap. exists (name, v).
      split; [done|]. by apply elem_of_map_to_list.
Qed.

Lemma range_Decode_in_is_Some (order : list (string * yaml_Node)) name :
  is_Some (range_Decode_in order !! name) ↔ name ∈ order.*1.
Proof.
  rewrite range_Decode_in_lookup.
  destruct (last order) as [visited_last|] eqn:Hlast.
  - destruct (decide (name ∈ order.*1)); [by split; eauto|].
    split; [by intros [? ?]|done].
  - apply last_None in Hlast as ->. split; [by intros [? ?]|].
    by intros ?%elem_of_nil.
Qed.

Lemma range_Decode_in_Some (order : list (string * yaml_Node)) name decoder :
  range_Decode_in order !! name = Some decoder →
  ∃ visited_last, last order = Some visited_last ∧
                  decoder = Decode visited_last.2.
Proof.
  rewrite range_Decode_in_lookup.
  destruct (last order) as [visited_last|]; [|done].
  destruct (decide (name ∈ order.*1)); [|done].
  intros [= <-]. by eexists.
Qed.

(** X9.  Whatever the order in which the range visits the entries, the
    map the loop builds has the names of the configured map and as many
    entries; but every decoder in it is bound to the one range variable
    and decodes the node visited last, so that which node the decoders
    decode is decided by the order of the range. *)
Theorem range_Decode_in_last_visited (src : gmap string yaml_Node) order :
  order ≡ₚ map_to_list src →
  size (range_Decode_in order) = size src ∧
  (∀ name, is_Some (range_Decode_in order !! name) ↔ is_Some (src !! name)) ∧
  (∀ name decoder, range_Decode_in order !! name = Some decoder →
     ∃ visited_last, last order = Some visited_last ∧
                     decoder = Decode visited_last.2).
Proof.
  intros (Hnodup & Hlength & Hnames)%visited_names. split; [|split].
  - by rewrite range_Decode_in_size.
  - intros name. by rewrite range_Decode_in_is_Some.
  - apply range_Decode_in_Some.
Qed.

Section Services_facts.

Context {World : Type} (env : Env World) (IntraserviceIssuer : string).

(** C1, as amended.  When [Services] returns without error, and, in
    IndexerOnly and MatcherOnly mode, the [Notifier] field of [Init] is
    nil before the call, the handles follow the table of section 4.1:
    Combined gives a local indexer, a local matcher and a local notifier;
    IndexerOnly a local indexer and nothing else; MatcherOnly a remote
    indexer and a local matcher, no notifier; NotifierOnly a remote
    indexer, a remote matcher and a local notifier. *)
Theorem Services_topology i w i' w' tr :
  Services env IntraserviceIssuer i w = (i', None, w', tr) →
  (config.Mode_ (conf i) ∈ [config.IndexerMode; config.MatcherMode] →
   Notifier i = None) →
  table_4_1 (config.Mode_ (conf i)) i' = true.
Proof.
  intros H Hnil. by_mode i H; cbn;
    try (rewrite Hnil by set_solver);
    try done;
    by match goal with n : notifier.Service |- _ => destruct n end.
Qed.

(** C2.  In MatcherOnly and NotifierOnly mode: when the client built
    with the intra-service claim comes back unauthenticated and the
    policy mandates authentication, [Services] fails with the
    authorization-required error and leaves [Init] as it was; when
    building that client fails, [Services] returns that very error. *)
Theorem Services_auth_gating i w i' r w' tr :
  config.Mode_ (conf i) ∈ [config.MatcherMode; config.NotifierMode] →
  IntraserviceIssuer ≠ NotifierIssuer →
  Services env IntraserviceIssuer i w = (i', r, w', tr) →
  (∀ cl, EvClient (intraserviceClaim IntraserviceIssuer) (ok (cl, false)) ∈ tr →
         config.Any (config.Auth_ (conf i)) = true →
         r = Some auth_required ∧ i' = i) ∧
  (∀ err, EvClient (intraserviceClaim IntraserviceIssuer) (failed err) ∈ tr →
          r = Some (Foreign err) ∧ i' = i).
Proof.
  intros Hmode HII H.
  assert (intraserviceClaim IntraserviceIssuer ≠ notifierClaim) as Hcl
    by (unfold intraserviceClaim, notifierClaim; congruence).
  by_mode i H; in_trace Hmode;
    (split; [intros cl' Hin Hany | intros err' Hin]);
    in_trace Hin; try done;
    rewrite ?Hany in *; cbn in *; congruence.
Qed.

(** C3.  A failed construction step is the last call [Services] makes:
    the calls before it all succeeded, [Services] returns that step's
    error (wrapped with the name of what failed), and [Init] is returned
    as it was.  More generally no error return modifies [Init]. *)
Theorem Services_first_error i w i' r w' tr :
  Services env IntraserviceIssuer i w = (i', r, w', tr) →
  (is_Some r → i' = i) ∧
  (∀ ev, ev ∈ tr → is_Some (failure ev) →
     ∃ before, tr = before ++ [ev] ∧
               Forall (λ ev', failure ev' = None) before ∧
               r = wrapped ev ∧ i' = i).
Proof.
  intros H. by_mode i H;
    (split; [intros [? ?]; by simplify_eq | intros ev Hin [e He]]);
    in_trace Hin; cbn in He; try discriminate;
    (match goal with |- ∃ _, ?t = _ ∧ _ => exists (removelast t) end);
    cbn; (split; [reflexivity|]);
    (split; [repeat constructor | done]).
Qed.

(** C4, as amended.  In MatcherOnly mode the local matcher is built
    first: when building the intra-service client fails, [libvuln.New]
    has already been called and has succeeded, no other collaborator
    was called, the error is returned and [Init] is as it was. *)
Theorem Services_matcher_before_client i w i' r w' tr err :
  config.Mode_ (conf i) = config.MatcherMode →
  EvClient (intraserviceClaim IntraserviceIssuer) (failed err) ∈ tr →
  Services env IntraserviceIssuer i w = (i', r, w', tr) →
  ∃ libV,
    tr = [EvLog "begin service initialization";
          EvLibvulnNew (matcher_Opts (map_range env) (conf i)) (ok libV);
          EvClient (intraserviceClaim IntraserviceIssuer) (failed err)] ∧
    r = Some (Foreign err) ∧ i' = i.
Proof.
  intros Hmode Hin H. by_mode i H; try discriminate;
    in_trace Hin; by eexists.
Qed.

(** C6.  For a mode that is none of the four, [Services] returns the
    error built from the text [could not determine passed in mode]
    and the mode itself, calls no collaborator, and returns [Init] as
    it was. *)
Theorem Services_unknown_mode i w :
  config.Mode_ (conf i) ∉ named_modes →
  Services env IntraserviceIssuer i w =
    (i,
     Some (fmt_Errorf "could not determine passed in mode: %v"
             (ArgMode (config.Mode_ (conf i)))),
     w,
     [EvLog "begin service initialization"]).
Proof.
  intros Hmode. unfold Services, named_modes in *.
  destruct (config.Mode_ (conf i)); try (exfalso; apply Hmode; set_solver).
  reflexivity.
Qed.

(** C9.  In Combined and NotifierOnly mode, whatever [authenticated]
    flag comes back with the client built with the notifier claim, and
    whatever the policy mandates, the next and last call is
    [notifier.New] with that client; [Services] succeeds exactly when
    that call does, and it never answers with the
    authorization-required error from there. *)
Theorem Services_notifier_claim_ungated i w i' r w' tr cl auth :
  config.Mode_ (conf i) ∈ [config.ComboMode; config.NotifierMode] →
  IntraserviceIssuer ≠ NotifierIssuer →
  EvClient notifierClaim (ok (cl, auth)) ∈ tr →
  Services env IntraserviceIssuer i w = (i', r, w', tr) →
  ∃ before nopts answer,
    tr = before ++ [EvClient notifierClaim (ok (cl, auth));
                    EvNotifierNew nopts answer] ∧
    notifier.Client nopts = cl ∧
    (r = None ↔ failure (EvNotifierNew nopts answer) = None) ∧
    r ≠ Some auth_required.
Proof.
  intros Hmode HII Hin H.
  assert (intraserviceClaim IntraserviceIssuer ≠ notifierClaim) as Hcl
    by (unfold intraserviceClaim, notifierClaim; congruence).
  by_mode i H; in_trace Hmode; in_trace Hin; try done;
    first [ eexists [_; _; _], _, _; split; [reflexivity|]
          | eexists [_; _; _; _], _, _; split; [reflexivity|] ];
    cbn; (split; [done|]); (split; [split|]); done.
Qed.

(** C10.  In IndexerOnly mode a successful [Services] leaves [Matcher]
    nil whatever it held, and in IndexerOnly and MatcherOnly mode
    [Notifier] comes out as it went in, on every run: it is absent
    afterwards exactly when it was absent before. *)
Theorem Services_Notifier_not_written i w i' r w' tr :
  config.Mode_ (conf i) ∈ [config.IndexerMode; config.MatcherMode] →
  Services env IntraserviceIssuer i w = (i', r, w', tr) →
  Notifier i' = Notifier i ∧
  (Notifier i' = None ↔ Notifier i = None) ∧
  (config.Mode_ (conf i) = config.IndexerMode → r = None → Matcher i' = None).
Proof.
  intros Hmode H. by_mode i H; in_trace Hmode; done.
Qed.

(** The options [notifier.New] is called with: [DisableSummary] is the
    configured flag in Combined mode and [false] in NotifierOnly mode,
    whatever is configured. *)
Lemma Services_notifier_DisableSummary i w i' r w' tr nopts answer :
  Services env IntraserviceIssuer i w = (i', r, w', tr) →
  EvNotifierNew nopts answer ∈ tr →
  notifier.DisableSummary nopts =
    match config.Mode_ (conf i) with
    | config.NotifierMode => false
    | _ => config.Notifier_DisableSummary (config.Notifier_ (conf i))
    end.
Proof.
  intros H Hin. by_mode i H; by in_trace Hin.
Qed.

End Services_facts.

(** * Concrete runs *)

Import scenario.

(** The intra-service issuer of the scenarios is not the notifier's. *)
Lemma issuers_differ : IntraserviceIssuer ≠ NotifierIssuer.
Proof. discriminate. Qed.

(** C1 as stated fails.  IndexerOnly mode, every construction succeeds,
    and the [Notifier] field of [Init] holds a handle before the call:
    [Services] returns without error and the handle is still there, where
    the table wants the notifier absent. *)
Lemma Services_topology_counterexample :
  let i := with_notifier (a_config config.IndexerMode false false) in
  ∃ i' w' tr,
    run all_ok i = (i', None, w', tr) ∧
    Notifier i' = Some (notifier.Local 9) ∧
    table_4_1 (config.Mode_ (conf i)) i' = false.
Proof. cbn zeta. eexists _, _, _. split; [reflexivity|]. split; reflexivity. Qed.

Lemma Services_topology_witness :
  let i := fresh (a_config config.IndexerMode true false) in
  ∃ i' w' tr,
    run all_ok i = (i', None, w', tr) ∧
    table_4_1 config.IndexerMode i' = true.
Proof.
  cbn zeta. eexists _, _, _. split; [reflexivity|].
  eapply (Services_topology (scripted all_ok) IntraserviceIssuer
            (fresh (a_config config.IndexerMode true false)) 0%nat);
    [reflexivity|].
  intros _. reflexivity.
Defined.

Lemma Services_auth_gating_witness :
  let i := fresh (a_config config.MatcherMode true false) in
  ∃ i' r w' tr,
    run unauthenticated i = (i', r, w', tr) ∧
    r = Some auth_required ∧ i' = i.
Proof.
  cbn zeta. eexists _, _, _, _. split; [reflexivity|].
  eapply (Services_auth_gating (scripted unauthenticated) IntraserviceIssuer
            (fresh (a_config config.MatcherMode true false)) 0%nat).
  - apply list_elem_of_here.
  - apply issuers_differ.
  - reflexivity.
  - apply list_elem_of_further, list_elem_of_further, list_elem_of_here.
  - reflexivity.
Defined.

Lemma Services_first_error_witness :
  let i := fresh (a_config config.ComboMode false false) in
  ∃ i' r w' tr,
    run matcher_fails i = (i', r, w', tr) ∧
    r = Some (fmt_Errorf "failed to initialize libvuln: %v"
                (ArgError {| Error := "connection refused" |})) ∧
    i' = i.
Proof.
  cbn zeta. eexists _, _, _, _. split; [reflexivity|].
  destruct (Services_first_error (scripted matcher_fails) IntraserviceIssuer
              (fresh (a_config config.ComboMode false false)) 0%nat
              _ _ _ _ eq_refl) as [_ Hfirst].
  destruct (Hfirst (EvLibvulnNew
                      (matcher_Opts (λ _, by_name)
                         (a_config config.ComboMode false false))
                      (failed {| Error := "connection refused" |})))
    as (before & _ & _ & Hr & Hi).
  - apply list_elem_of_further, list_elem_of_further, list_elem_of_here.
  - by eexists.
  - split; [exact Hr | exact Hi].
Defined.

(** C4 as stated fails.  MatcherOnly mode, signing fails: the error is
    returned, but [libvuln.New] has been called (and has succeeded)
    before the client was asked for. *)
Lemma Services_matcher_before_client_counterexample :
  let c := a_config config.MatcherMode false false in
  run signing_fails (fresh c) =
    (fresh c,
     Some (Foreign {| Error := "signing failed" |}),
     2%nat,
     [EvLog "begin service initialization";
      EvLibvulnNew (matcher_Opts (λ _, by_name) c) (ok {| libvuln.ref := 2 |});
      EvClient (intraserviceClaim IntraserviceIssuer)
        (failed {| Error := "signing failed" |})]) ∧
  existsb is_libvuln_New (run signing_fails (fresh c)).2 = true.
Proof. split; reflexivity. Qed.

Lemma Services_matcher_before_client_witness :
  let c := a_config config.MatcherMode false false in
  ∃ libV,
    (run signing_fails (fresh c)).2 =
      [EvLog "begin service initialization";
       EvLibvulnNew (matcher_Opts (λ _, by_name) c) (ok libV);
       EvClient (intraserviceClaim IntraserviceIssuer)
         (failed {| Error := "signing failed" |})].
Proof.
  cbn zeta.
  edestruct (Services_matcher_before_client (scripted signing_fails)
               IntraserviceIssuer
               (fresh (a_config config.MatcherMode false false)) 0%nat)
    as (libV & Htr & _); [reflexivity| |reflexivity|].
  - do 2 apply list_elem_of_further. apply list_elem_of_here.
  - exists libV. exact Htr.
Defined.

(** C5 fails on the code.  The configuration disables the summary; in
    NotifierOnly mode [notifier.New] is called with [DisableSummary]
    false, where Combined mode, on the same configuration, passes
    true. *)
Theorem NotifierOnly_drops_DisableSummary :
  let sent (m : config.Mode) :=
    notifier.DisableSummary <$>
      (last (run all_ok (fresh (a_config m false true))).2 ≫= notifier_New_opts) in
  config.Notifier_DisableSummary
    (config.Notifier_ (a_config config.NotifierMode false true)) = true ∧
  (run all_ok (fresh (a_config config.NotifierMode false true))).1.1.2 = None ∧
  sent config.NotifierMode = Some false ∧
  sent config.ComboMode = Some true.
Proof. repeat split. Qed.

Lemma Services_unknown_mode_witness :
  run all_ok (fresh (a_config (config.OtherMode "observer") true false)) =
    (fresh (a_config (config.OtherMode "observer") true false),
     Some (fmt_Errorf "could not determine passed in mode: %v"
             (ArgMode (config.OtherMode "observer"))),
     0%nat,
     [EvLog "begin service initialization"]).
Proof.
  apply (Services_unknown_mode (scripted all_ok) IntraserviceIssuer
           (fresh (a_config (config.OtherMode "observer") true false))).
  cbn. unfold named_modes. intros Hin. in_trace Hin.
Defined.

(** C7 fails on the code.  The configuration names two ecosystems for
    the package scanners, each with its own node.  The map given to
    [libindex.New] has the two names, but both decoders decode one and
    the same node, the one the range visited last: the node of [rpm]
    when the range goes by name, the node of [python] when it goes the
    other way.  In either order one name is bound to the other entry's
    node, where the claim wants each name bound to its own. *)
Theorem Services_scanner_decoders_share_the_range_variable :
  let c := a_config config.IndexerMode false false in
  let python := {| node_text := "b: 2" |} in
  let rpm := {| node_text := "a: 1" |} in
  let given visit :=
    Package_given
      (Services (scripted_in visit all_ok) IntraserviceIssuer (fresh c) 0%nat).2 in
  config.Package (config.Scanner (config.Indexer_ c)) = Some two_ecosystems ∧
  by_name two_ecosystems = [("python", python); ("rpm", rpm)] ∧
  go_len (given by_name) = 2%nat ∧
  go_lookup (given by_name) "python" = Some (Decode rpm) ∧
  go_lookup (given by_name) "rpm" = Some (Decode rpm) ∧
  go_lookup (given by_name_backwards) "python" = Some (Decode python) ∧
  go_lookup (given by_name_backwards) "rpm" = Some (Decode python) ∧
  ¬ decoders_of (Some two_ecosystems) (given by_name) ∧
  ¬ decoders_of (Some two_ecosystems) (given by_name_backwards).
Proof.
  cbn zeta. do 7 (split; [by vm_compute|]). split.
  - intros (_ & _ & _ & Hown).
    specialize (Hown "python" {| node_text := "b: 2" |} eq_refl).
    vm_compute in Hown. discriminate Hown.
  - intros (_ & _ & _ & Hown).
    specialize (Hown "rpm" {| node_text := "a: 1" |} eq_refl).
    vm_compute in Hown. discriminate Hown.
Qed.

Lemma Services_notifier_claim_ungated_witness :
  let i := fresh (a_config config.ComboMode true false) in
  let out := run notifier_client_unauthenticated i in
  config.Any (config.Auth_ (conf i)) = true ∧
  ∃ before nopts answer,
    out.2 = before ++ [EvClient notifierClaim (ok ({| http.ref := 3 |}, false));
                       EvNotifierNew nopts answer] ∧
    notifier.Client nopts = {| http.ref := 3 |} ∧
    (out.1.1.2 = None ↔ failure (EvNotifierNew nopts answer) = None) ∧
    out.1.1.2 ≠ Some auth_required.
Proof.
  cbn zeta. split; [reflexivity|].
  eapply (Services_notifier_claim_ungated
            (scripted notifier_client_unauthenticated) IntraserviceIssuer
            (fresh (a_config config.ComboMode true false)) 0%nat);
    [apply list_elem_of_here|apply issuers_differ| |reflexivity].
  do 3 apply list_elem_of_further. apply list_elem_of_here.
Defined.

(** Combined mode, authentication mandated, the notifier-claim client
    not authenticated: initialisation succeeds all the same. *)
Example Combined_proceeds_with_unauthenticated_notifier_client :
  run notifier_client_unauthenticated (fresh (a_config config.ComboMode true false)) =
    ({| conf := a_config config.ComboMode true false;
        Indexer := Some (indexer.Local {| libindex.ref := 1 |});
        Matcher := Some (matcher.Local {| libvuln.ref := 2 |});
        Notifier := Some (notifier.Local 5) |},
     None,
     4%nat,
     (run notifier_client_unauthenticated
        (fresh (a_config config.ComboMode true false))).2).
Proof. reflexivity. Qed.

Lemma Services_Notifier_not_written_witness :
  let i := with_notifier (a_config config.IndexerMode false false) in
  (run all_ok i).1.1.1 =
    {| conf := conf i;
       Indexer := Some (indexer.Local {| libindex.ref := 1 |});
       Matcher := None;
       Notifier := Some (notifier.Local 9) |} ∧
  Notifier (run all_ok i).1.1.1 = Notifier i.
Proof.
  cbn zeta. split; [reflexivity|].
  eapply (Services_Notifier_not_written (scripted all_ok) IntraserviceIssuer
            (with_notifier (a_config config.IndexerMode false false)) 0%nat);
    [apply list_elem_of_here|reflexivity].
Defined.

(** * Theorems about the document generator *)

Import document.

Lemma foldl_insert_list_to_map {V} (l : list (string * V)) (acc : gmap string V) :
  foldl (λ m kv, <[kv.1 := kv.2]> m) acc l = list_to_map (reverse l) ∪ acc.
Proof.
  revert acc. induction l as [|[k v] l IH]; intros acc.
  - cbn. by rewrite (left_id_L ∅ (∪)).
  - cbn [foldl]. rewrite IH, reverse_cons, list_to_map_app.
    cbn. by rewrite insert_empty, <-(assoc_L (∪)), <-insert_union_singleton_l.
Qed.

(** Stores under distinct keys commute: the map built does not depend on
    the order of the stores. *)
Lemma foldl_insert_permutation {V} (l1 l2 : list (string * V)) :
  NoDup l1.*1 → l1 ≡ₚ l2 →
  foldl (λ m kv, <[kv.1 := kv.2]> m) (∅ : gmap string V) l1 =
  foldl (λ m kv, <[kv.1 := kv.2]> m) ∅ l2.
Proof.
  intros Hnodup Hperm. rewrite !foldl_insert_list_to_map.
  f_equal. apply list_to_map_proper.
  - by rewrite reverse_Permutation.
  - by rewrite !reverse_Permutation.
Qed.

Lemma foldl_insert_key {K V} (f : K → string) (l : list (K * V)) (acc : gmap string V) :
  foldl (λ m kv, <[f kv.1 := kv.2]> m) acc l =
  foldl (λ m kv, <[kv.1 := kv.2]> m) acc (prod_map f id <$> l).
Proof. revert acc. induction l as [|[k v] l IH]; intros acc; cbn; [done|apply IH]. Qed.

Section value_induction.
Context {K : Type} (P : value K → Prop).
Hypothesis HDyn : ∀ x, P (Dyn x).
Hypothesis HSlice : ∀ x, Forall P x → P (Slice x).
Hypothesis HMapI : ∀ x, Forall (λ kv, P kv.2) x → P (MapI x).
Hypothesis HMapS : ∀ x, Forall (λ kv, P kv.2) x → P (MapS x).

Fixpoint value_nested_ind (i : value K) : P i :=
  match i with
  | Dyn x => HDyn x
  | Slice x =>
      HSlice x ((fix go l : Forall P l :=
                   match l with
                   | [] => List.Forall_nil _
                   | v :: l' => @List.Forall_cons _ P v l' (value_nested_ind v) (go l')
                   end) x)
  | MapI x =>
      HMapI x ((fix go l : Forall (λ kv, P kv.2) l :=
                  match l with
                  | [] => List.Forall_nil _
                  | kv :: l' =>
                      @List.Forall_cons _ (λ kv, P kv.2) kv l' (value_nested_ind kv.2) (go l')
                  end) x)
  | MapS x =>
      HMapS x ((fix go l : Forall (λ kv, P kv.2) l :=
                  match l with
                  | [] => List.Forall_nil _
                  | kv :: l' =>
                      @List.Forall_cons _ (λ kv, P kv.2) kv l' (value_nested_ind kv.2) (go l')
                  end) x)
  end.
End value_induction.

Lemma foldr_and_Forall {A} (P : A → Prop) (l : list A) :
  foldr (λ a rest, P a ∧ rest) True l ↔ Forall P l.
Proof.
  induction l as [|a l IH]; cbn.
  - split; [constructor|done].
  - rewrite Forall_cons, IH. done.
Qed.

Section convert_facts.
Context {K : Type} (fmt_Sprint : K → string).

(** On a value whose keys print apart, every run of [convert] builds what
    the run that visits the entries as listed builds. *)
Lemma convert_any_order (order : range_order) (i : value K) :
  permutes order →
  well_formed i → keys_print_apart fmt_Sprint i →
  convert fmt_Sprint order i = convert fmt_Sprint in_listed_order i.
Proof.
  intros Hperm. induction i as [x|x IH|x IH|x IH] using value_nested_ind;
    cbn [convert well_formed keys_print_apart]; intros Hwf Hkeys.
  - done.
  - f_equal. apply foldr_and_Forall in Hwf, Hkeys.
    revert Hwf Hkeys. induction IH as [|v l Hv _ IHl]; intros Hwf Hkeys; [done|].
    apply Forall_cons_1 in Hwf as [? ?]. apply Forall_cons_1 in Hkeys as [? ?].
    cbn. f_equal; auto.
  - destruct Hwf as [_ Hwf], Hkeys as [Hnodup Hkeys].
    apply foldr_and_Forall in Hwf, Hkeys. f_equal.
    assert (map (λ kv, (kv.1, convert fmt_Sprint order kv.2)) x =
            map (λ kv, (kv.1, convert fmt_Sprint in_listed_order kv.2)) x) as ->.
    { clear Hnodup. revert Hwf Hkeys.
      induction IH as [|v l Hv _ IHl]; intros Hwf Hkeys; [done|].
      apply Forall_cons_1 in Hwf as [? ?]. apply Forall_cons_1 in Hkeys as [? ?].
      cbn. f_equal; [f_equal|]; auto. }
    unfold in_listed_order at 1.
    rewrite !foldl_insert_key. apply foldl_insert_permutation.
    + rewrite (Hperm _ _).
      rewrite <-!list_fmap_compose.
      rewrite <-list_fmap_compose in Hnodup.
      by rewrite (list_fmap_ext _ (fmt_Sprint ∘ fst) x) by (by intros ? []).
    + by rewrite (Hperm _ _).
  - destruct Hwf as [Hnodup Hwf].
    apply foldr_and_Forall in Hwf, Hkeys. f_equal.
    assert (map (λ kv, (kv.1, convert fmt_Sprint order kv.2)) x =
            map (λ kv, (kv.1, convert fmt_Sprint in_listed_order kv.2)) x) as ->.
    { clear Hnodup. revert Hwf Hkeys.
      induction IH as [|v l Hv _ IHl]; intros Hwf Hkeys; [done|].
      apply Forall_cons_1 in Hwf as [? ?]. apply Forall_cons_1 in Hkeys as [? ?].
      cbn. f_equal; [f_equal|]; auto. }
    unfold in_listed_order at 1.
    apply foldl_insert_permutation; [|done].
    rewrite (Hperm _ _), <-list_fmap_compose.
    by rewrite (list_fmap_ext _ fst x) by (by intros ? []).
Qed.

End convert_facts.

(** ** The literals *)

Lemma hex_digit_lowercase (n : N) :
  lowercase_hex (hex_digit n) = true ∧ raw_safe (hex_digit n) = true.
Proof.
  destruct n as [|p]; [done|].
  do 4 (destruct p as [p|p|]; try done).
Qed.

Lemma fmt_x_lowercase (bytes : string) :
  string_forallb lowercase_hex (fmt_x bytes) = true.
Proof.
  induction bytes as [|b rest IH]; [done|].
  cbn. by rewrite !(proj1 (hex_digit_lowercase _)), IH.
Qed.

Lemma fmt_x_raw_safe (bytes : string) :
  string_forallb raw_safe (fmt_x bytes) = true.
Proof.
  induction bytes as [|b rest IH]; [done|].
  cbn. by rewrite !(proj2 (hex_digit_lowercase _)), IH.
Qed.

Lemma fmt_x_length (bytes : string) :
  String.length (fmt_x bytes) = (2 * String.length bytes)%nat.
Proof. induction bytes as [|b rest IH]; cbn; [done|]. rewrite IH. lia. Qed.

Lemma string_forallb_app p (s t : string) :
  string_forallb p (s +:+ t) = string_forallb p s && string_forallb p t.
Proof.
  induction s as [|c s IH]; [done|].
  change (String c s +:+ t) with (String c (s +:+ t)).
  cbn [string_forallb]. by rewrite IH, andb_assoc.
Qed.

(** A raw string literal of raw-safe characters denotes these
    characters. *)
Lemma raw_string_value_safe (s : string) :
  string_forallb raw_safe s = true →
  raw_string_value (s +:+ String backquote EmptyString) = Some s.
Proof.
  induction s as [|c s IH]; [done|].
  change (String c s +:+ ?t) with (String c (s +:+ t)).
  cbn [string_forallb raw_string_value].
  intros [Hc Hs]%andb_prop. rewrite (IH Hs).
  unfold raw_safe in Hc. apply andb_prop in Hc as [Hb Hr].
  apply negb_true_iff in Hb, Hr. rewrite Hb. cbn. by rewrite Hr.
Qed.

Lemma raw_string_value_quoted (digits : string) :
  string_forallb raw_safe digits = true →
  raw_string_value (digits +:+ String dquote (String backquote EmptyString)) =
  Some (digits +:+ String dquote EmptyString).
Proof.
  induction digits as [|c s IH]; [done|].
  change (String c s +:+ ?t) with (String c (s +:+ t)).
  cbn [string_forallb raw_string_value].
  intros [Hc Hs]%andb_prop. rewrite (IH Hs).
  unfold raw_safe in Hc. apply andb_prop in Hc as [Hb Hr].
  apply negb_true_iff in Hb, Hr. rewrite Hb. cbn. by rewrite Hr.
Qed.

(** The literal of the content hash denotes the digits between double
    quotes. *)
Lemma etag_literal_denotes unquote (digits : string) :
  string_forallb raw_safe digits = true →
  literal_value unquote
    (String backquote
       (String dquote (digits +:+ String dquote (String backquote EmptyString)))) =
  Some (String dquote (digits +:+ String dquote EmptyString)).
Proof.
  intros Hsafe. unfold literal_value. rewrite Ascii.eqb_refl.
  cbn [raw_string_value]. by rewrite (raw_string_value_quoted _ Hsafe).
Qed.

Section main_facts.

Context {K : Type} (fmt_Sprint : K → string).
Context (yaml_Decode : string → returned (list (K * value K))).
Context (json_Marshal : json K → returned string).
Context (sha256_Sum256 : string → string).
Context (strconv_CanBackquote : string → bool).
Context (strconv_Quote : string → string).
Context (strconv_Unquote : string → option string).

(** What is assumed of [strconv]: a string that can be back-quoted holds
    no back quote and no carriage return, and [Quote] writes a
    double-quoted literal that denotes the string quoted. *)
Hypothesis CanBackquote_raw_safe :
  ∀ s, strconv_CanBackquote s = true → string_forallb raw_safe s = true.
Hypothesis Quote_denotes :
  ∀ s, ∃ rest, strconv_Quote s = String dquote rest ∧
               strconv_Unquote (strconv_Quote s) = Some s.

Local Abbreviation run order :=
  (main fmt_Sprint order yaml_Decode json_Marshal sha256_Sum256
     strconv_CanBackquote strconv_Quote).

Local Abbreviation value_of := (literal_value strconv_Unquote).

Lemma Sprintf_sharp_q_denotes (s : string) :
  value_of (Sprintf_sharp_q strconv_CanBackquote strconv_Quote s) = Some s.
Proof.
  unfold Sprintf_sharp_q, literal_value.
  destruct (strconv_CanBackquote s) eqn:Hcan.
  - rewrite Ascii.eqb_refl. by apply raw_string_value_safe, CanBackquote_raw_safe.
  - destruct (Quote_denotes s) as (rest & Hq & Hu). rewrite Hu, Hq. done.
Qed.

(** C8, as amended.  On a document in which no two keys of one mapping
    print alike, two runs, whatever the order in which each visits the
    entries of the maps, emit the same two constants.  And on every
    document, in every run, when the run emits its constants, the JSON
    constant denotes the marshalled bytes and the content-hash constant
    denotes, between double quotes, the SHA-256 digest of these bytes in
    lowercase hexadecimal, two digits a byte. *)
Theorem main_deterministic_and_tagged (input : string) :
  (∀ order1 order2 : range_order,
     permutes order1 → permutes order2 →
     (∀ tmp, yaml_Decode input = ok tmp →
             well_formed (MapI tmp) ∧ keys_print_apart fmt_Sprint (MapI tmp)) →
     run order1 input = run order2 input) ∧
  (∀ (order : range_order) out, run order input = ok out →
     ∃ embed digits,
       value_of (openapiJSON out) = Some embed ∧
       digits = fmt_x (sha256_Sum256 embed) ∧
       value_of (openapiJSONEtag out) =
         Some (String dquote (digits +:+ String dquote EmptyString)) ∧
       string_forallb lowercase_hex digits = true ∧
       String.length digits = (2 * String.length (sha256_Sum256 embed))%nat).
Proof.
  unfold main. split.
  - intros order1 order2 Hperm1 Hperm2 Hdoc.
    destruct (yaml_Decode input) as [tmp|err]; [|done].
    destruct (Hdoc tmp eq_refl) as [Hwf Hkeys].
    rewrite (convert_any_order fmt_Sprint order1), (convert_any_order fmt_Sprint order2);
      done.
  - intros order out Hout.
    destruct (yaml_Decode input) as [tmp|err]; [|done].
    destruct (json_Marshal _) as [embed|err]; [|done].
    injection Hout as <-. exists embed, (fmt_x (sha256_Sum256 embed)).
    cbn [openapiJSON openapiJSONEtag].
    split; [apply Sprintf_sharp_q_denotes|]. split; [done|].
    split; [|split; [apply fmt_x_lowercase|apply fmt_x_length]].
    apply etag_literal_denotes, fmt_x_raw_safe.
Qed.

End main_facts.

(** ** Concrete runs of the generator *)

Lemma in_reverse_order_permutes : permutes in_reverse_order.
Proof. intros A l. apply reverse_Permutation. Qed.

Lemma in_listed_order_permutes : permutes in_listed_order.
Proof. by intros A l. Qed.

Lemma but_last_quoted (s : string) (c : ascii) :
  but_last (s +:+ String c EmptyString) = s.
Proof.
  induction s as [|d s IH]; [done|].
  change (String d s +:+ ?t) with (String d (s +:+ t)).
  cbn [but_last]. rewrite IH. by destruct s.
Qed.

Lemma stand_in_Quote_denotes (s : string) :
  ∃ rest, Quote s = String dquote rest ∧ Unquote (Quote s) = Some s.
Proof.
  eexists. split; [reflexivity|].
  unfold Quote, quoted, Unquote. by rewrite but_last_quoted.
Qed.

(** C8 as stated fails.  The document [{True: a, "true": b}] holds two
    keys that [fmt.Sprint] prints alike: [convert] stores both values
    under ["true"], and the one stored last stays.  A run that visits
    the entries as listed and a run that visits them the other way round
    build different objects, hence emit different constants. *)
Lemma main_order_counterexample :
  well_formed (MapI colliding) ∧
  permutes in_listed_order ∧ permutes in_reverse_order ∧
  convert Sprint in_listed_order (MapI colliding) =
    JObject {["true" := JDyn (Str "b")]} ∧
  convert Sprint in_reverse_order (MapI colliding) =
    JObject {["true" := JDyn (Str "a")]} ∧
  generate in_listed_order colliding ≠ generate in_reverse_order colliding.
Proof.
  split; [|split; [|split; [|split; [|split]]]].
  - cbn. split; [|done]. by apply (bool_decide_unpack _).
  - apply in_listed_order_permutes.
  - apply in_reverse_order_permutes.
  - reflexivity.
  - reflexivity.
  - vm_compute. discriminate.
Qed.

Lemma main_deterministic_and_tagged_witness :
  generate in_listed_order description = generate in_reverse_order description ∧
  ∀ out, generate in_reverse_order colliding = ok out →
    ∃ embed digits,
      literal_value Unquote (openapiJSON out) = Some embed ∧
      digits = fmt_x (Sum embed) ∧
      literal_value Unquote (openapiJSONEtag out) =
        Some (String dquote (digits +:+ String dquote EmptyString)) ∧
      string_forallb lowercase_hex digits = true ∧
      String.length digits = (2 * String.length (Sum embed))%nat.
Proof.
  split.
  - apply (main_deterministic_and_tagged Sprint (Decode_as description) Marshal Sum
             CanBackquote Quote Unquote (λ s H, H) stand_in_Quote_denotes
             "openapi.yaml");
      [apply in_listed_order_permutes|apply in_reverse_order_permutes|].
    intros tmp [= <-]. cbn.
    repeat split; by apply (bool_decide_unpack _).
  - apply (main_deterministic_and_tagged Sprint (Decode_as colliding) Marshal Sum
             CanBackquote Quote Unquote (λ s H, H) stand_in_Quote_denotes
             "openapi.yaml").
Defined.

(** * Further facts about [Services] *)

(** An event is in a trace written out. *)
Ltac in_run := solve [eauto 8 using list_elem_of_here, list_elem_of_further].

Section Services_more.

Context {World : Type} (env : Env World) (IntraserviceIssuer : string).

(** X1.  The collaborators a run calls are, in order, a prefix of the plan of
    its mode, and the whole plan when the run succeeds. *)
Theorem Services_call_plan i w i' r w' tr :
  Services env IntraserviceIssuer i w = (i', r, w', tr) →
  (callee_of <$> tr) `prefix_of` call_plan (config.Mode_ (conf i)) ∧
  (r = None → callee_of <$> tr = call_plan (config.Mode_ (conf i))).
Proof.
  intros H. by_mode i H; cbn; (split; [by eexists | done]).
Qed.

(** X2.  An error comes from one of three places: the mode is not one of the
    four; or the intra-service client came back unauthenticated where
    authentication is mandated; or the last call failed and the error is
    that call's, wrapped. *)
Theorem Services_error_causes i w i' e w' tr :
  Services env IntraserviceIssuer i w = (i', Some e, w', tr) →
  ((config.Mode_ (conf i) ∉ named_modes) ∧
   e = fmt_Errorf "could not determine passed in mode: %v"
         (ArgMode (config.Mode_ (conf i)))) ∨
  (e = auth_required ∧
   config.Any (config.Auth_ (conf i)) = true ∧
   config.Mode_ (conf i) ∈ [config.MatcherMode; config.NotifierMode] ∧
   ∃ cl, last tr = Some (EvClient (intraserviceClaim IntraserviceIssuer)
                           (ok (cl, false)))) ∨
  ∃ ev, last tr = Some ev ∧ wrapped ev = Some e.
Proof.
  intros H. by_mode i H;
    try (right; right; eexists; split; reflexivity);
    try (left; split; [intros Hin; in_trace Hin|done]);
    right; left;
    match goal with
    | E : negb ?a && ?b = true |- _ =>
        apply andb_prop in E as [Ha Hb]; apply negb_true_iff in Ha; subst a
    end;
    (split; [done|]); (split; [done|]); (split; [in_run|]); by eexists.
Qed.

(** X3.  Every remote client is built for the configured address of the
    remote indexer or of the remote matcher of the mode, over the client
    that the intra-service claim gave, and that client was authenticated
    unless no authentication is mandated. *)
Theorem Services_remote_calls i w i' r w' tr addr cl answer :
  Services env IntraserviceIssuer i w = (i', r, w', tr) →
  EvNewHTTP addr cl answer ∈ tr →
  (indexer_address (conf i) = Some addr ∨ matcher_address (conf i) = Some addr) ∧
  ∃ auth,
    EvClient (intraserviceClaim IntraserviceIssuer) (ok (cl, auth)) ∈ tr ∧
    (auth = true ∨ config.Any (config.Auth_ (conf i)) = false).
Proof.
  intros H Hin. unfold indexer_address, matcher_address.
  by_mode i H; in_trace Hin;
    (split; [by (left + right)|]);
    match goal with
    | E : negb ?a && ?b = false |- _ =>
        exists a; split; [in_run|];
        apply andb_false_iff in E as [E|E]; [left; by apply negb_false_iff|by right]
    end.
Qed.

(** X4.  The notifier is built over the handles that a successful run
    publishes: the indexer and the matcher it is given are the ones left
    in [Init], the notifier left in [Init] is the one built, and its
    client is the one the notifier claim gave. *)
Theorem Services_notifier_handles i w i' w' tr nopts n :
  Services env IntraserviceIssuer i w = (i', None, w', tr) →
  EvNotifierNew nopts (ok n) ∈ tr →
  Indexer i' = Some (notifier.Indexer nopts) ∧
  Matcher i' = Some (notifier.Matcher nopts) ∧
  Notifier i' = Some n ∧
  ∃ auth, EvClient notifierClaim (ok (notifier.Client nopts, auth)) ∈ tr.
Proof.
  intros H Hin. by_mode i H; in_trace Hin;
    (do 3 (split; [done|])); eexists; in_run.
Qed.

(** X5.  Where the handles of a successful run come from: a local handle is
    the one its constructor returned for the options of the
    configuration, a remote handle is the client built for the configured
    address of that peer, and a notifier is the one built in the run or
    the one [Init] held before it. *)
Theorem Services_handles_provenance i w i' w' tr :
  Services env IntraserviceIssuer i w = (i', None, w', tr) →
  (∀ l, Indexer i' = Some (indexer.Local l) →
        EvLibindexNew (indexer_Opts (map_range env) (conf i)) (ok l) ∈ tr) ∧
  (∀ c, Indexer i' = Some (indexer.Remote c) →
        ∃ addr cl, indexer_address (conf i) = Some addr ∧
                   EvNewHTTP addr cl (ok c) ∈ tr) ∧
  (∀ l, Matcher i' = Some (matcher.Local l) →
        EvLibvulnNew (matcher_Opts (map_range env) (conf i)) (ok l) ∈ tr) ∧
  (∀ c, Matcher i' = Some (matcher.Remote c) →
        ∃ addr cl, matcher_address (conf i) = Some addr ∧
                   EvNewHTTP addr cl (ok c) ∈ tr) ∧
  (∀ n, Notifier i' = Some n →
        Notifier i = Some n ∨ ∃ nopts, EvNotifierNew nopts (ok n) ∈ tr).
Proof.
  intros H. unfold indexer_address, matcher_address.
  by_mode i H; cbn; repeat split; intros ? [= <-] || intros ? [=] || intros ? ?;
    try (eexists _, _; split; [done|]); try in_run;
    try (right; eexists; in_run); by left.
Qed.

(** X6.  The decoders of the updaters given to [libvuln.New]: the map has
    the configured names and as many entries, and is empty when the
    configured map is nil; every decoder in it decodes the node that the
    range over the configured map visited last. *)
Theorem Services_updater_decoders i w i' r w' tr opts answer :
  visits_every_entry env →
  Services env IntraserviceIssuer i w = (i', r, w', tr) →
  EvLibvulnNew opts answer ∈ tr →
  let configured := config.Updaters_Config (config.Updaters_ (conf i)) in
  let given := libvuln.UpdaterConfigs opts in
  size given = go_len configured ∧
  (∀ name, is_Some (given !! name) ↔ is_Some (go_lookup configured name)) ∧
  (∀ name decoder, given !! name = Some decoder →
     ∃ entries visited_last,
       configured = Some entries ∧
       last (map_range env 3%nat entries) = Some visited_last ∧
       decoder = Decode visited_last.2).
Proof.
  intros Hvisits H Hin configured given.
  assert (opts = matcher_Opts (map_range env) (conf i)) as ->
    by (by_mode i H; by in_trace Hin).
  subst given. cbn [matcher_Opts libvuln.UpdaterConfigs]. fold configured.
  destruct configured as [entries|]; cbn [go_len go_lookup from_option mbind option_bind].
  - unfold range_Decode.
    destruct (visited_names entries _ (Hvisits 3%nat entries))
      as (Hnodup & Hlength & Hnames).
    split; [|split].
    + by rewrite range_Decode_in_size.
    + intros name. by rewrite range_Decode_in_is_Some.
    + intros name decoder Hdecoder.
      apply range_Decode_in_Some in Hdecoder as (visited_last & ? & ?).
      by exists entries, visited_last.
  - split; [done|]. split.
    + intros name. rewrite lookup_empty. split; by intros [? ?].
    + intros name decoder. by rewrite lookup_empty.
Qed.

(** X7.  [int32(MaxConnPool)]: the pool size given to [libvuln.New] is the
    configured one when it fits 32 bits; in any case it lies within the
    bounds of [int32] and differs from the configured one by a multiple
    of 2^32. *)
Theorem Services_MaxConnPool_int32 i w i' r w' tr opts answer :
  Services env IntraserviceIssuer i w = (i', r, w', tr) →
  EvLibvulnNew opts answer ∈ tr →
  let configured := config.Matcher_MaxConnPool (config.Matcher_ (conf i)) in
  (MinInt32 ≤ libvuln.MaxConnPool opts ≤ MaxInt32)%Z ∧
  ((libvuln.MaxConnPool opts - configured) `mod` 2 ^ 32 = 0)%Z ∧
  ((MinInt32 ≤ configured ≤ MaxInt32)%Z → libvuln.MaxConnPool opts = configured).
Proof.
  intros H Hin configured.
  assert (opts = matcher_Opts (map_range env) (conf i)) as ->
    by (by_mode i H; by in_trace Hin).
  cbn [matcher_Opts libvuln.MaxConnPool]. fold configured.
  unfold int_wrap, MinInt32, MaxInt32.
  change (2 ^ (32 - 1))%Z with 2147483648%Z.
  change (2 ^ 31)%Z with 2147483648%Z. change (2 ^ 32)%Z with 4294967296%Z.
  pose proof (Z.mod_pos_bound (configured + 2147483648) 4294967296 eq_refl).
  pose proof (Z.div_mod (configured + 2147483648) 4294967296 ltac:(lia)).
  split; [lia|]. split.
  - replace ((configured + 2147483648) `mod` 4294967296 - 2147483648 - configured)%Z
      with ((- ((configured + 2147483648) `div` 4294967296)) * 4294967296)%Z by lia.
    apply Z.mod_mul. lia.
  - intros Hfit. rewrite Z.mod_small by lia. lia.
Qed.

(** X8.  [time.Duration(ScanLockRetry) * time.Second]: a configured number of
    seconds whose nanoseconds fit 64 bits reaches [libindex.New] as that
    many nanoseconds. *)
Theorem Services_ScanLockRetry_nanoseconds i w i' r w' tr opts answer :
  Services env IntraserviceIssuer i w = (i', r, w', tr) →
  EvLibindexNew opts answer ∈ tr →
  let configured := config.Indexer_ScanLockRetry (config.Indexer_ (conf i)) in
  (- max_whole_seconds ≤ configured ≤ max_whole_seconds)%Z →
  libindex.ScanLockRetry opts = (configured * 1000000000)%Z.
Proof.
  intros H Hin configured Hfit.
  assert (opts = indexer_Opts (map_range env) (conf i)) as ->
    by (by_mode i H; by in_trace Hin).
  cbn [indexer_Opts libindex.ScanLockRetry]. fold configured.
  unfold max_whole_seconds, MaxInt64, time.Second in *.
  change ((2 ^ 63 - 1) `div` 1000000000)%Z with 9223372036%Z in Hfit.
  unfold int_wrap.
  change (2 ^ (64 - 1))%Z with 9223372036854775808%Z.
  change (2 ^ 64)%Z with 18446744073709551616%Z.
  rewrite (Z.mod_small (configured + _)) by lia.
  rewrite Z.mod_small by lia. lia.
Qed.

End Services_more.

(** * Further facts about the document generator *)

Lemma foldl_insert_keep {V} (l : list (string * V)) (acc : gmap string V) s :
  s ∉ l.*1 → foldl (λ m kv, <[kv.1 := kv.2]> m) acc l !! s = acc !! s.
Proof.
  revert acc. induction l as [|[k v] l IH]; intros acc Hs; [done|].
  cbn in *. apply not_elem_of_cons in Hs as [Hne Hs].
  by rewrite IH, lookup_insert_ne.
Qed.

Lemma foldl_insert_is_Some {V} (l : list (string * V)) (acc : gmap string V) s :
  is_Some (foldl (λ m kv, <[kv.1 := kv.2]> m) acc l !! s) ↔
  s ∈ l.*1 ∨ is_Some (acc !! s).
Proof.
  revert acc. induction l as [|[k v] l IH]; intros acc; cbn.
  - rewrite elem_of_nil. tauto.
  - rewrite IH, elem_of_cons, lookup_insert_is_Some.
    destruct (decide (k = s)) as [->|]; intuition congruence.
Qed.

Lemma foldl_insert_size {V} (l : list (string * V)) (acc : gmap string V) :
  size (foldl (λ m kv, <[kv.1 := kv.2]> m) acc l) ≤ size acc + length l.
Proof.
  revert acc. induction l as [|[k v] l IH]; intros acc; cbn; [lia|].
  etrans; [apply IH|]. rewrite map_size_insert.
  destruct (acc !! k); unfold id; lia.
Qed.

Lemma foldl_insert_last {V} (before after : list (string * V)) k v :
  k ∉ after.*1 →
  foldl (λ m kv, <[kv.1 := kv.2]> m) (∅ : gmap string V)
    (before ++ (k, v) :: after) !! k = Some v.
Proof.
  intros Hk. rewrite foldl_app. cbn.
  by rewrite foldl_insert_keep, lookup_insert_eq.
Qed.

Lemma foldl_insert_NoDup {V} (l : list (string * V)) :
  NoDup l.*1 →
  size (foldl (λ m kv, <[kv.1 := kv.2]> m) (∅ : gmap string V) l) = length l ∧
  ∀ k v, (k, v) ∈ l → foldl (λ m kv, <[kv.1 := kv.2]> m) (∅ : gmap string V) l !! k = Some v.
Proof.
  intros Hnodup. rewrite foldl_insert_list_to_map, (right_id_L ∅ (∪)).
  assert (NoDup (reverse l).*1) as Hrev
    by (by rewrite fmap_reverse, reverse_Permutation).
  split.
  - by rewrite map_size_list_to_map, length_reverse.
  - intros k v Hin. apply elem_of_list_to_map; [done|].
    by apply elem_of_reverse.
Qed.

Section convert_more.

Context {K : Type} (fmt_Sprint : K → string) (order : range_order).
Hypothesis order_permutes : permutes order.

Local Abbreviation converted x :=
  (map (λ kv : K * value K, (kv.1, convert fmt_Sprint order kv.2)) x).

Lemma converted_keys (x : list (K * value K)) :
  (prod_map fmt_Sprint id <$> order _ (converted x)).*1 ≡ₚ fmt_Sprint <$> x.*1.
Proof.
  rewrite (order_permutes _ _), <-!list_fmap_compose.
  by rewrite (list_fmap_ext _ (fmt_Sprint ∘ fst) x) by (by intros ? []).
Qed.

(** X10.  The keys of the object built from a [map[interface{}]interface{}]
    are the printed keys of the map, no other and none missing, so the
    object never has more fields than the map has entries. *)
Theorem convert_MapI_keys (x : list (K * value K)) :
  let obj := fields (convert fmt_Sprint order (MapI x)) in
  (∀ s, is_Some (obj !! s) ↔ s ∈ fmt_Sprint <$> x.*1) ∧
  size obj ≤ length x.
Proof.
  cbn. rewrite foldl_insert_key. split.
  - intros s. rewrite foldl_insert_is_Some, converted_keys, lookup_empty.
    rewrite is_Some_alt. tauto.
  - etrans; [apply foldl_insert_size|].
    rewrite map_size_empty, length_fmap, (order_permutes _ _), length_map. lia.
Qed.

(** X11.  When the keys print apart nothing is lost: the object has one field
    for each entry, and under the printed key of an entry stands the
    conversion of its value. *)
Theorem convert_MapI_lookup (x : list (K * value K)) :
  NoDup (fmt_Sprint <$> x.*1) →
  let obj := fields (convert fmt_Sprint order (MapI x)) in
  size obj = length x ∧
  ∀ k v, (k, v) ∈ x → obj !! fmt_Sprint k = Some (convert fmt_Sprint order v).
Proof.
  intros Hnodup. cbn. rewrite foldl_insert_key.
  rewrite <-converted_keys in Hnodup.
  destruct (foldl_insert_NoDup _ Hnodup) as [Hsize Hlookup]. split.
  - by rewrite Hsize, length_fmap, (order_permutes _ _), length_map.
  - intros k v Hin. apply Hlookup.
    apply (list_elem_of_fmap_2 (prod_map fmt_Sprint id) _ (k, convert fmt_Sprint order v)).
    rewrite (order_permutes _ _).
    by apply (list_elem_of_fmap_2 (λ kv, (kv.1, convert fmt_Sprint order kv.2)) _ (k, v)).
Qed.

(** X12.  A [map[string]interface{}] keeps its keys as they are: one field for
    each entry, and under the key of an entry the conversion of its
    value. *)
Theorem convert_MapS_lookup (x : list (string * value K)) :
  NoDup x.*1 →
  let obj := fields (convert fmt_Sprint order (MapS x)) in
  size obj = length x ∧
  (∀ s, is_Some (obj !! s) ↔ s ∈ x.*1) ∧
  ∀ k v, (k, v) ∈ x → obj !! k = Some (convert fmt_Sprint order v).
Proof.
  intros Hnodup. cbn.
  assert ((order _ (map (λ kv : string * value K,
                           (kv.1, convert fmt_Sprint order kv.2)) x)).*1 ≡ₚ x.*1)
    as Hkeys.
  { rewrite (order_permutes _ _), <-list_fmap_compose.
    by rewrite (list_fmap_ext _ fst x) by (by intros ? []). }
  rewrite <-Hkeys in Hnodup.
  destruct (foldl_insert_NoDup _ Hnodup) as [Hsize Hlookup]. split; [|split].
  - by rewrite Hsize, (order_permutes _ _), length_map.
  - intros s. rewrite foldl_insert_is_Some, Hkeys, lookup_empty, is_Some_alt.
    tauto.
  - intros k v Hin. apply Hlookup. rewrite (order_permutes _ _).
    by apply (list_elem_of_fmap_2 (λ kv, (kv.1, convert fmt_Sprint order kv.2)) _ (k, v)).
Qed.

End convert_more.

Section convert_listed.

Context {K : Type} (fmt_Sprint : K → string).

(** X13.  When keys print alike the later store overwrites the earlier one: in
    a run that visits the entries as listed, under a printed key stands
    the conversion of the value of the last entry whose key prints so. *)
Theorem convert_MapI_last_store_wins (before after : list (K * value K)) k v :
  Forall (λ kv, fmt_Sprint kv.1 ≠ fmt_Sprint k) after →
  fields (convert fmt_Sprint in_listed_order (MapI (before ++ (k, v) :: after)))
    !! fmt_Sprint k =
  Some (convert fmt_Sprint in_listed_order v).
Proof.
  intros Hafter. cbn. unfold in_listed_order at 1.
  rewrite foldl_insert_key, map_app, fmap_app. cbn.
  apply (foldl_insert_last _ _ (fmt_Sprint k)).
  intros (kv & Hk & Hin)%list_elem_of_fmap.
  apply list_elem_of_fmap in Hin as (kv' & -> & Hin).
  apply list_elem_of_fmap in Hin as (kv'' & -> & Hin).
  rewrite Forall_forall in Hafter. by apply (Hafter _ Hin).
Qed.

End convert_listed.

Lemma string_keyed_keys_print_apart {K} (fmt_Sprint : K → string) (i : value K) :
  string_keyed i → keys_print_apart fmt_Sprint i.
Proof.
  induction i as [x|x IH|x IH|x IH] using value_nested_ind;
    cbn [string_keyed keys_print_apart]; [done| |done|].
  - rewrite !foldr_and_Forall. intros Hx.
    induction IH as [|v l Hv _ IHl]; [done|].
    apply Forall_cons_1 in Hx as [? ?]. constructor; auto.
  - rewrite !foldr_and_Forall. intros Hx.
    induction IH as [|v l Hv _ IHl]; [done|].
    apply Forall_cons_1 in Hx as [? ?]. constructor; auto.
Qed.

Lemma convert_string_keyed_listed {K} (print1 print2 : K → string) (i : value K) :
  string_keyed i →
  convert print1 in_listed_order i = convert print2 in_listed_order i.
Proof.
  induction i as [x|x IH|x IH|x IH] using value_nested_ind;
    cbn [string_keyed convert]; [done| |done|].
  - rewrite foldr_and_Forall. intros Hx. f_equal.
    induction IH as [|v l Hv _ IHl]; [done|].
    apply Forall_cons_1 in Hx as [? ?]. cbn. f_equal; auto.
  - rewrite foldr_and_Forall. intros Hx. do 3 f_equal.
    induction IH as [|v l Hv _ IHl]; [done|].
    apply Forall_cons_1 in Hx as [? ?]. cbn. f_equal; [f_equal|]; auto.
Qed.

(** X14.  A document decoded without any [map[interface{}]interface{}] is
    converted the same way in every run and whatever way keys would be
    printed: no key of it is ever printed. *)
Theorem convert_string_keyed {K} (print1 print2 : K → string)
    (order1 order2 : range_order) (i : value K) :
  permutes order1 → permutes order2 →
  well_formed i → string_keyed i →
  convert print1 order1 i = convert print2 order2 i.
Proof.
  intros Hperm1 Hperm2 Hwf Hkeyed.
  rewrite (convert_any_order print1 order1), (convert_any_order print2 order2)
    by auto using string_keyed_keys_print_apart.
  by apply convert_string_keyed_listed.
Qed.

(** ** The content hash read back *)

Lemma unhex_digit_hex_digit (n : N) :
  (n < 16)%N → unhex_digit (hex_digit n) = Some n.
Proof.
  intros Hn. destruct n as [|p]; [done|].
  do 4 (destruct p as [p|p|]; try done); lia.
Qed.

Lemma unhex_fmt_x (bytes : string) : unhex (fmt_x bytes) = Some bytes.
Proof.
  induction bytes as [|b rest IH]; [done|].
  cbn [fmt_x unhex]. rewrite IH.
  pose proof (Ascii.N_ascii_bounded b) as Hb.
  rewrite !unhex_digit_hex_digit.
  - f_equal. f_equal.
    rewrite <-N.div_mod'. apply Ascii.ascii_N_embedding.
  - by apply N.mod_lt.
  - apply N.Div0.div_lt_upper_bound. lia.
Qed.

Lemma until_dquote_digits (digits : string) :
  string_forallb lowercase_hex digits = true →
  until_dquote (digits +:+ String dquote EmptyString) = Some digits.
Proof.
  induction digits as [|c s IH]; [done|].
  change (String c s +:+ ?t) with (String c (s +:+ t)).
  cbn [string_forallb until_dquote].
  intros [Hc Hs]%andb_prop. rewrite (IH Hs).
  destruct (Ascii.eqb_spec c dquote) as [->|]; [done|done].
Qed.

Section etag_facts.

Context {K : Type} (fmt_Sprint : K → string) (order : range_order).
Context (yaml_Decode : string → returned (list (K * value K))).
Context (json_Marshal : json K → returned string).
Context (sha256_Sum256 : string → string).
Context (strconv_CanBackquote : string → bool).
Context (strconv_Quote : string → string).

(** X15.  The digest can be read back from the content-hash constant: when
    [main] emits its constants, the literal of the content hash decodes
    to the SHA-256 of the bytes [json.Marshal] returned for the converted
    document, whatever the function that reads double-quoted literals. *)
Theorem main_etag_round_trip (unquote : string → option string) input out :
  main fmt_Sprint order yaml_Decode json_Marshal sha256_Sum256
    strconv_CanBackquote strconv_Quote input = ok out →
  ∃ tmp embed,
    yaml_Decode input = ok tmp ∧
    json_Marshal (convert fmt_Sprint order (MapI tmp)) = ok embed ∧
    etag_digest unquote (openapiJSONEtag out) = Some (sha256_Sum256 embed).
Proof.
  unfold main. intros Hout.
  destruct (yaml_Decode input) as [tmp|err]; [|done].
  destruct (json_Marshal _) as [embed|err] eqn:Hembed; [|done].
  injection Hout as <-. exists tmp, embed. split; [done|]. split; [done|].
  unfold etag_digest. cbn [openapiJSONEtag].
  rewrite etag_literal_denotes by apply fmt_x_raw_safe.
  rewrite Ascii.eqb_refl, until_dquote_digits by apply fmt_x_lowercase.
  apply unhex_fmt_x.
Qed.

End etag_facts.

(** * Concrete runs for the further facts *)

Import more_scenarios.

Lemma Services_call_plan_witness :
  let i := fresh (a_config config.MatcherMode false false) in
  (callee_of <$> (run signing_fails i).2) `prefix_of` call_plan config.MatcherMode ∧
  ((run signing_fails i).1.1.2 = None →
   callee_of <$> (run signing_fails i).2 = call_plan config.MatcherMode).
Proof.
  cbn zeta.
  eapply (Services_call_plan (scripted signing_fails) IntraserviceIssuer
            (fresh (a_config config.MatcherMode false false)) 0%nat).
  reflexivity.
Defined.

Lemma Services_error_causes_witness :
  let i := fresh (a_config config.NotifierMode true false) in
  (run unauthenticated i).1.1.2 = Some auth_required ∧
  last (run unauthenticated i).2 =
    Some (EvClient (intraserviceClaim IntraserviceIssuer)
            (ok ({| http.ref := 3 |}, false))).
Proof.
  cbn zeta. split; [reflexivity|].
  destruct (Services_error_causes (scripted unauthenticated) IntraserviceIssuer
              (fresh (a_config config.NotifierMode true false)) 0%nat
              (fresh (a_config config.NotifierMode true false))
              auth_required 1%nat
              (run unauthenticated (fresh (a_config config.NotifierMode true false))).2
              eq_refl)
    as [[_ Hother]|[(_ & _ & _ & cl & Hlast)|(ev & Hlast & Hwrapped)]].
  - discriminate Hother.
  - reflexivity.
  - injection Hlast as <-. discriminate Hwrapped.
Defined.

Lemma Services_remote_calls_witness :
  let i := fresh (a_config config.NotifierMode true false) in
  (indexer_address (conf i) = Some "http://matcher:8080" ∨
   matcher_address (conf i) = Some "http://matcher:8080") ∧
  ∃ auth,
    EvClient (intraserviceClaim IntraserviceIssuer) (ok ({| http.ref := 3 |}, auth))
      ∈ (run all_ok i).2 ∧
    (auth = true ∨ config.Any (config.Auth_ (conf i)) = false).
Proof.
  cbn zeta.
  eapply (Services_remote_calls (scripted all_ok) IntraserviceIssuer
            (fresh (a_config config.NotifierMode true false)) 0%nat
            _ _ _ _ _ _ (ok {| client.ref := 4 |}) eq_refl).
  do 3 apply list_elem_of_further. apply list_elem_of_here.
Defined.

Lemma Services_notifier_handles_witness :
  let i := fresh (a_config config.NotifierMode true false) in
  ∃ nopts,
    EvNotifierNew nopts (ok (notifier.Local 5)) ∈ (run all_ok i).2 ∧
    Indexer (run all_ok i).1.1.1 = Some (notifier.Indexer nopts) ∧
    Matcher (run all_ok i).1.1.1 = Some (notifier.Matcher nopts) ∧
    Notifier (run all_ok i).1.1.1 = Some (notifier.Local 5) ∧
    ∃ auth, EvClient notifierClaim (ok (notifier.Client nopts, auth))
              ∈ (run all_ok i).2.
Proof.
  cbn zeta. eexists.
  assert (∀ P Q : Prop, P → (P → Q) → P ∧ Q) as both by tauto.
  apply both.
  - do 5 apply list_elem_of_further. apply list_elem_of_here.
  - eapply (Services_notifier_handles (scripted all_ok) IntraserviceIssuer
             (fresh (a_config config.NotifierMode true false)) 0%nat).
    reflexivity.
Defined.

Lemma Services_handles_provenance_witness :
  let i := fresh (a_config config.MatcherMode true false) in
  ∃ addr cl,
    indexer_address (conf i) = Some addr ∧
    EvNewHTTP addr cl (ok {| client.ref := 4 |}) ∈ (run all_ok i).2.
Proof.
  cbn zeta.
  destruct (Services_handles_provenance (scripted all_ok) IntraserviceIssuer
              (fresh (a_config config.MatcherMode true false)) 0%nat
              _ _ _ eq_refl) as (_ & Hremote & _).
  apply Hremote. reflexivity.
Defined.

Lemma by_name_visits_every_entry (s : Script) : visits_every_entry (scripted s).
Proof. intros site m. apply merge_sort_Permutation. Qed.

Lemma Services_updater_decoders_witness :
  let c := with_updaters (Some two_updaters) (a_config config.MatcherMode false false) in
  ∃ opts answer,
    EvLibvulnNew opts answer ∈ (run all_ok (fresh c)).2 ∧
    size (libvuln.UpdaterConfigs opts) = 2%nat ∧
    (∀ name, is_Some (libvuln.UpdaterConfigs opts !! name) ↔
             is_Some (go_lookup (Some two_updaters) name)) ∧
    (∀ name decoder, libvuln.UpdaterConfigs opts !! name = Some decoder →
       ∃ entries visited_last,
         Some two_updaters = Some entries ∧
         last (by_name entries) = Some visited_last ∧
         decoder = Decode visited_last.2).
Proof.
  cbn zeta. eexists _, _.
  assert (∀ P Q : Prop, P → (P → Q) → P ∧ Q) as both by tauto.
  apply both.
  - apply list_elem_of_further, list_elem_of_here.
  - eapply (Services_updater_decoders (scripted all_ok) IntraserviceIssuer
              (fresh (with_updaters (Some two_updaters)
                        (a_config config.MatcherMode false false))) 0%nat).
    + apply by_name_visits_every_entry.
    + reflexivity.
Defined.

Lemma Services_MaxConnPool_int32_witness :
  let c := with_pool 4294967396 (a_config config.MatcherMode false false) in
  ∃ opts answer,
    EvLibvulnNew opts answer ∈ (run all_ok (fresh c)).2 ∧
    libvuln.MaxConnPool opts = 100%Z ∧
    (MinInt32 ≤ libvuln.MaxConnPool opts ≤ MaxInt32)%Z ∧
    ((libvuln.MaxConnPool opts - 4294967396) `mod` 2 ^ 32 = 0)%Z.
Proof.
  cbn zeta. eexists _, _.
  assert (∀ P Q R : Prop, P → Q → (P → R) → P ∧ Q ∧ R) as both by tauto.
  apply both.
  - apply list_elem_of_further, list_elem_of_here.
  - reflexivity.
  - intros Hin.
    destruct (Services_MaxConnPool_int32 (scripted all_ok) IntraserviceIssuer
                (fresh (with_pool 4294967396
                          (a_config config.MatcherMode false false))) 0%nat
                _ _ _ _ _ _ eq_refl Hin) as (Hbounds & Hmod & _).
    split; [exact Hbounds|exact Hmod].
Defined.

Lemma Services_ScanLockRetry_nanoseconds_witness :
  let c := a_config config.IndexerMode false false in
  ∃ opts answer,
    EvLibindexNew opts answer ∈ (run all_ok (fresh c)).2 ∧
    libindex.ScanLockRetry opts = (10 * 1000000000)%Z.
Proof.
  cbn zeta. eexists _, _.
  assert (∀ P Q : Prop, P → (P → Q) → P ∧ Q) as both by tauto.
  apply both.
  - apply list_elem_of_further, list_elem_of_here.
  - intros Hin.
    eapply (Services_ScanLockRetry_nanoseconds (scripted all_ok) IntraserviceIssuer
             (fresh (a_config config.IndexerMode false false)) 0%nat
             _ _ _ _ _ _ eq_refl Hin).
    vm_compute. split; discriminate.
Defined.

Lemma range_Decode_in_last_visited_witness :
  let order := reverse (map_to_list two_ecosystems) in
  size (range_Decode_in order) = size two_ecosystems ∧
  (∀ name, is_Some (range_Decode_in order !! name) ↔
           is_Some (two_ecosystems !! name)) ∧
  (∀ name decoder, range_Decode_in order !! name = Some decoder →
     ∃ visited_last, last order = Some visited_last ∧
                     decoder = Decode visited_last.2).
Proof.
  apply range_Decode_in_last_visited, reverse_Permutation.
Defined.

Lemma convert_MapI_keys_witness :
  let obj := fields (convert Sprint in_reverse_order (MapI colliding)) in
  (∀ s, is_Some (obj !! s) ↔ s ∈ Sprint <$> colliding.*1) ∧
  size obj ≤ length colliding.
Proof.
  apply (convert_MapI_keys Sprint in_reverse_order in_reverse_order_permutes).
Defined.

Lemma convert_MapI_lookup_witness :
  let obj := fields (convert Sprint in_reverse_order (MapI responses)) in
  size obj = 2%nat ∧
  obj !! "404" = Some (JDyn (Str "not found")).
Proof.
  cbn zeta.
  destruct (convert_MapI_lookup Sprint in_reverse_order in_reverse_order_permutes
              responses) as [Hsize Hlookup].
  - by apply (bool_decide_unpack _).
  - split; [exact Hsize|].
    apply (Hlookup (Int 404) (Dyn (Str "not found"))).
    apply list_elem_of_further, list_elem_of_here.
Defined.

Lemma convert_MapS_lookup_witness :
  let obj := fields (convert Sprint in_reverse_order (MapS info)) in
  size obj = 3%nat ∧
  obj !! "title" = Some (JDyn (Str "ClairV4")).
Proof.
  cbn zeta.
  destruct (convert_MapS_lookup Sprint in_reverse_order in_reverse_order_permutes
              info) as (Hsize & _ & Hlookup).
  - by apply (bool_decide_unpack _).
  - split; [exact Hsize|].
    apply (Hlookup "title" (Dyn (Str "ClairV4"))). apply list_elem_of_here.
Defined.

Lemma convert_MapI_last_store_wins_witness :
  fields (convert Sprint in_listed_order (MapI colliding)) !! "true" =
  Some (JDyn (Str "b")).
Proof.
  apply (convert_MapI_last_store_wins Sprint
           [(Bool true, Dyn (Str "a"))] [] (Str "true") (Dyn (Str "b"))).
  constructor.
Defined.

Lemma convert_string_keyed_witness :
  convert Sprint in_listed_order (MapS info) =
  convert (λ _, "key") in_reverse_order (MapS info).
Proof.
  apply convert_string_keyed.
  - apply in_listed_order_permutes.
  - apply in_reverse_order_permutes.
  - cbn. repeat split. all: by apply (bool_decide_unpack _).
  - cbn. tauto.
Defined.

Lemma main_etag_round_trip_witness :
  ∃ out tmp embed,
    generate in_listed_order description = ok out ∧
    Decode_as description "openapi.yaml" = ok tmp ∧
    Marshal (convert Sprint in_listed_order (MapI tmp)) = ok embed ∧
    etag_digest Unquote (openapiJSONEtag out) = Some (Sum embed).
Proof.
  eexists.
  assert (∀ (A B : Type) (P : Prop) (Q : A → B → Prop),
            P → (P → ∃ a b, Q a b) → ∃ a b, P ∧ Q a b) as both.
  { intros A B P Q HP HQ. destruct (HQ HP) as (a & b & H). by exists a, b. }
  apply both.
  - reflexivity.
  - apply main_etag_round_trip.
Defined.
